(** * detray: frame projection, helix-cylinder intersector, consistency
      checker and io type ids

    A shallow embedding of

    - [core/include/detray/coordinates/cartesian2.hpp],
    - [tests/common/include/tests/common/tools/intersectors/helix_cylinder_intersector.hpp],
    - [core/include/detray/utils/consistency_checker.hpp],
    - [io/include/detray/io/common/detail/type_info.hpp].

    Scalars ([scalar_type], a [float] or [double] in the C++ sources) are
    exact rationals in canonical form ([Qc]) in the modules [algebra],
    [cartesian2] and [helix_cylinder], so that [==] on scalars is Leibniz
    equality and every definition evaluates; what is proved of them is about
    the control flow and the algebra of the code, not about rounding.  The
    module [any_scalar] embeds the intersector once more over any scalar
    type, with IEEE binary64 as an instance, for what depends on the
    arithmetic of the build. *)

From Stdlib Require Import String QArith Qcanon Qcabs ZArith NArith List Bool
  Lia Floats.
Import ListNotations.

(** ** Linear algebra used by the sources

    The algebra plugin ([getter::], [vector::]) is not among the sources; the
    operations below are the textbook ones on three-component arrays. *)
Module algebra.

Definition scalar := Qc.

Definition lit (q : Q) : scalar := Q2Qc q.

Record point2 := mk_point2 { p2_0 : scalar; p2_1 : scalar }.
Record point3 := mk_point3 { p3_0 : scalar; p3_1 : scalar; p3_2 : scalar }.
Definition vector3 := point3.

Local Open Scope Qc_scope.

Definition vsub (a b : point3) : vector3 :=
  mk_point3 (p3_0 a - p3_0 b) (p3_1 a - p3_1 b) (p3_2 a - p3_2 b).

Definition vadd (a b : point3) : point3 :=
  mk_point3 (p3_0 a + p3_0 b) (p3_1 a + p3_1 b) (p3_2 a + p3_2 b).

Definition vscale (k : scalar) (a : vector3) : vector3 :=
  mk_point3 (k * p3_0 a) (k * p3_1 a) (k * p3_2 a).

(** [vector::cross] *)
Definition cross (a b : vector3) : vector3 :=
  mk_point3 (p3_1 a * p3_2 b - p3_2 a * p3_1 b)
            (p3_2 a * p3_0 b - p3_0 a * p3_2 b)
            (p3_0 a * p3_1 b - p3_1 a * p3_0 b).

(** [vector::dot] *)
Definition dot (a b : vector3) : scalar :=
  p3_0 a * p3_0 b + p3_1 a * p3_1 b + p3_2 a * p3_2 b.

Definition zero3 : vector3 := mk_point3 0 0 0.

(** [a > b] and [a == b] on scalars, as booleans. *)
Definition gtb (a b : scalar) : bool := negb (Qle_bool a b).
Definition eqb (a b : scalar) : bool := Qc_eq_bool a b.

(** A matrix is read through its element accessor [(row, col)];
    [getter::vector<3>(m, row, col)] takes three rows of one column. *)
Definition matrix := nat -> nat -> scalar.

Definition getter_vector3 (m : matrix) (row col : nat) : vector3 :=
  mk_point3 (m row col) (m (S row) col) (m (S (S row)) col).

(** [transform3_t] is a template parameter of every source file; what the
    sources use of it is its matrix and its two point maps. *)
Record transform3 := mk_transform3 {
  trf_matrix : matrix;
  point_to_local : point3 -> point3;
  point_to_global : point3 -> point3
}.

Section with_sqrt.
(** [std::sqrt], which has no rational counterpart, is a parameter. *)
Variable sqrt : scalar -> scalar.

(** [getter::perp]: the transverse length. *)
Definition perp (v : vector3) : scalar :=
  sqrt (p3_0 v * p3_0 v + p3_1 v * p3_1 v).

(** [getter::norm]: the Euclidean length. *)
Definition norm (v : vector3) : scalar := sqrt (dot v v).
End with_sqrt.

(** A square root for evaluation: exact on squares of rationals, and
    rounded down to a multiple of [1/den] elsewhere. *)
Definition sqrt_q (x : scalar) : scalar :=
  Q2Qc (Z.sqrt (Qnum x * Zpos (Qden x)) # Qden x).

(** An affine placement given by its rotation columns and translation,
    together with the columns and translation of the inverse map. *)
Definition apply_affine (cx cy cz t : vector3) (p : point3) : point3 :=
  vadd (vadd (vscale (p3_0 p) cx) (vscale (p3_1 p) cy))
       (vadd (vscale (p3_2 p) cz) t).

Definition affine_matrix (cx cy cz t : vector3) : matrix :=
  fun row col =>
    let c := match col with
             | O => cx | 1%nat => cy | 2%nat => cz | _ => t
             end in
    match row with
    | O => p3_0 c | 1%nat => p3_1 c | 2%nat => p3_2 c
    | _ => match col with 3%nat => 1 | _ => 0 end
    end.

Definition affine (cx cy cz t icx icy icz it : vector3) : transform3 :=
  mk_transform3 (affine_matrix cx cy cz t)
                (apply_affine icx icy icz it)
                (apply_affine cx cy cz t).

Definition identity_transform : transform3 :=
  affine (mk_point3 1 0 0) (mk_point3 0 1 0) (mk_point3 0 0 1) zero3
         (mk_point3 1 0 0) (mk_point3 0 1 0) (mk_point3 0 0 1) zero3.

End algebra.
Import algebra.

(** ** [cartesian2]: projection into a cartesian 2D frame *)
Module cartesian2.

(** [operator()(const point2 &)] *)
Definition project2 (local2 : point2) : point2 := local2.

(** [operator()(const point3 &)] : [{local3[0], local3[1]}] *)
Definition project3 (local3 : point3) : point2 :=
  mk_point2 (p3_0 local3) (p3_1 local3).

(** [global_to_local(trf, p, d)]; the direction is not used. *)
Definition global_to_local (trf : transform3) (p : point3) (d : vector3)
  : point2 :=
  let local3 := point_to_local trf p in
  project3 local3.

(** [local_to_global(trf, mask, p, d)]; mask and direction are not used. *)
Definition local_to_global {mask_t : Type} (trf : transform3) (mask : mask_t)
           (p : point2) (d : vector3) : point3 :=
  point_to_global trf (mk_point3 (p2_0 p) (p2_1 p) (lit 0)).

End cartesian2.

(** ** The helix-cylinder intersector *)
Module helix_cylinder.

Local Open Scope Qc_scope.

(** [detail::helix<transform3_t>]: the intersector evaluates a trajectory
    only through its position and its direction at a path length. *)
Record helix := mk_helix {
  pos : scalar -> point3;
  dir : scalar -> vector3
}.

Inductive intersection_status := inside | outside | on_boundary.
Inductive intersection_direction := e_along | e_opposite.

(** [mask_t]: boundary values ([operator[]]), the boundary test
    [is_inside<local_frame, true>(local3, tolerance)], the volume link and
    the [global_to_local] of its [local_type]. *)
Record mask := mk_mask {
  mask_values : nat -> scalar;
  is_inside : point3 -> scalar -> intersection_status;
  volume_link : N;
  local_frame_global_to_local : transform3 -> point3 -> vector3 -> point2
}.

(** [line_plane_intersection].  Its member initialisers are not among the
    sources, so a member that still holds the value it was
    default-constructed with is [None], and a member the intersector has
    assigned is [Some] of the assigned value. *)
Record intersection := mk_intersection {
  path : option scalar;
  p3 : option point3;
  p2 : option point2;
  status : option intersection_status;
  direction : option intersection_direction;
  link : option N
}.

Definition default_intersection : intersection :=
  mk_intersection None None None None None None.

(** [std::array<intersection_type, 2>] *)
Definition output_type := (intersection * intersection)%type.

Definition max_n_tries : nat := 100.
Definition tol : scalar := lit (1 # 1000).

(** The variables the loop assigns. *)
Record newton_state := mk_state {
  s : scalar;
  s_prev : scalar;
  n_tries : nat
}.

(** [std::abs(s - s_prev) > tol and n_tries < max_n_tries] *)
Definition loop_cond (st : newton_state) : bool :=
  gtb (Qcabs (s st - s_prev st)) tol && (n_tries st <? max_n_tries)%nat.

Inductive loop_exit :=
| zero_denominator                (* [return ret] inside the loop *)
| loop_done (st : newton_state).  (* the loop condition became false *)

Section intersector.
Variable sqrt : scalar -> scalar.
Variables (h : helix) (m : mask) (trf : transform3).
Variable mask_tolerance : scalar.

Definition sm : matrix := trf_matrix trf.
(** Cylinder z axis and cylinder centre. *)
Definition sz : vector3 := getter_vector3 sm 0 2.
Definition sc : point3 := getter_vector3 sm 0 3.
Definition r : scalar := mask_values m 0.

Definition crp_at (x : scalar) : vector3 := cross (vsub (pos h x) sc) sz.

Definition denom_at (x : scalar) : scalar :=
  lit 2 * dot (crp_at x) (cross (dir h x) sz).

(** One pass through the loop body: [None] is the early [return ret]. *)
Definition newton_step (st : newton_state) : option newton_state :=
  let crp := crp_at (s st) in
  let denom := denom_at (s st) in
  if eqb denom (lit 0) then None
  else Some (mk_state (s st - (dot crp crp - r * r) / denom)
                      (s st)
                      (S (n_tries st))).

(** The [while] loop; [fuel] bounds the number of passes and [None]
    means that it ran out. *)
Fixpoint newton_loop (fuel : nat) (st : newton_state) : option loop_exit :=
  if loop_cond st then
    match fuel with
    | O => None
    | S fuel' =>
        match newton_step st with
        | None => Some zero_denominator
        | Some st' => newton_loop fuel' st'
        end
    end
  else Some (loop_done st).

(** The state after [k] passes through the loop body, if the loop
    makes that many. *)
Fixpoint newton_iterate (k : nat) (st : newton_state)
  : option newton_state :=
  match k with
  | O => Some st
  | S k' =>
      if loop_cond st then
        match newton_step st with
        | Some st' => newton_iterate k' st'
        | None => None
        end
      else None
  end.

(** [loop_reaches a b]: started in [a], the loop comes to its head in
    state [b]. *)
Inductive loop_reaches (a : newton_state) : newton_state -> Prop :=
| reaches_start : loop_reaches a a
| reaches_pass b c :
    loop_reaches a b -> loop_cond b = true -> newton_step b = Some c ->
    loop_reaches a c.

(** The assignments to [ret[0]] after the loop. *)
Definition build_intersection (x : scalar) : intersection :=
  let helix_pos := pos h x in
  let local3 := point_to_local trf helix_pos in
  mk_intersection
    (Some (norm sqrt helix_pos))
    (Some helix_pos)
    (Some (local_frame_global_to_local m trf helix_pos (dir h x)))
    (Some (is_inside m local3 mask_tolerance))
    (Some (if gtb (dot helix_pos (dir h x)) (lit 0)
           then e_along else e_opposite))
    (Some (volume_link m)).

Definition initial_state : newton_state :=
  let s0 := r * perp sqrt (dir h tol) in
  mk_state s0 (s0 - lit (1 # 10)) 0.

(** What follows the loop. *)
Definition finish (ret : output_type) (e : loop_exit) : output_type :=
  match e with
  | zero_denominator => ret
  | loop_done st =>
      if (n_tries st =? max_n_tries)%nat then ret
      else (build_intersection (s st), snd ret)
  end.

(** [operator()] *)
Definition helix_cylinder_intersector : option output_type :=
  let ret := (default_intersection, default_intersection) in
  option_map (finish ret) (newton_loop max_n_tries initial_state).

End intersector.

(** *** Inputs for evaluation *)

(** A straight trajectory: position [p0 + s * d], constant direction. *)
Definition straight_line (p0 d : vector3) : helix :=
  mk_helix (fun x => vadd p0 (vscale x d)) (fun _ => d).

(** A cylinder mask of radius [radius]: the radial test accepts a local
    point whose transverse length is within the tolerance of the radius. *)
Definition cylinder_mask (radius : scalar) (vol_link : N) : mask :=
  mk_mask (fun _ => radius)
          (fun local3 t =>
             if Qle_bool (Qcabs (perp sqrt_q local3 - radius)) t
             then inside else outside)
          vol_link
          cartesian2.global_to_local.

(** Tangent to the unit cylinder at [(1, 0, 0)], started far below the
    point of tangency. *)
Definition tangent_offset : scalar := lit (2 ^ 97 # 125) - 1.
Definition tangent_line : helix :=
  straight_line (mk_point3 1 tangent_offset 0) (mk_point3 0 1 0).

(** Along the x axis from [(1, 0, 0)], crossing the cylinder of radius 3
    after a path length of 2. *)
Definition crossing_line : helix :=
  straight_line (mk_point3 1 0 0) (mk_point3 1 0 0).

End helix_cylinder.

(** ** The detector as the consistency checker reads it

    The detector, its descriptors and its stores are declared outside the
    sources at hand.  The records below carry what [consistency_checker.hpp]
    reads from them. *)
Module detector_model.

(** [dindex] and its invalid value, the largest [unsigned int]. *)
Definition dindex := N.
Definition dindex_invalid : dindex := 4294967295%N.
Definition is_invalid_value (i : dindex) : bool := N.eqb i dindex_invalid.

(** A typed link: the id of a collection in a store and an index into it. *)
Record typed_index := mk_link { id : N; index : dindex }.

Inductive surface_id := e_portal | e_sensitive | e_passive.

(** A surface descriptor.  The material link is optional: [None] is a
    link whose id is [e_none], for which [has_material()] is false. *)
Record surface_desc := mk_surface {
  sf_volume : dindex;
  sf_index : dindex;
  sf_id : surface_id;
  sf_mask : typed_index;
  sf_material : option typed_index
}.

Definition is_portal (sf : surface_desc) : bool :=
  match sf_id sf with e_portal => true | _ => false end.

(** A volume descriptor: its index, its optional material link and the
    links to its acceleration data structures. *)
Record volume_desc := mk_volume {
  vol_index : dindex;
  vol_material : option typed_index;
  vol_accel_links : list typed_index
}.

Inductive material := vacuum | substance (name : string).

(** A slab or rod of material. *)
Record material_slab := mk_slab {
  slab_material : material;
  slab_thickness : N
}.

(** A material map: bins of slabs. *)
Record material_map := mk_map { bins : list (list material_slab) }.

(** The collections of the material store. *)
Inductive material_coll :=
| material_maps (maps : list material_map)
| hom_volume_material (mats : list material)
| hom_surface_material (slabs : list material_slab).

Record detector := mk_detector {
  volumes : list volume_desc;
  surfaces : list surface_desc;          (* the flat surface lookup *)
  transform_store : list transform3;
  mask_store : list (list helix_cylinder.mask);
  material_store : list material_coll;
  (* collection id, then structure index, then the surfaces it holds *)
  accelerator_store : list (list (list surface_desc));
  volume_search_grid : list dindex
}.

(** Modelled from the spec: [detector::portals()] is declared outside the
    sources.  By the spec the portal check looks for a surface flagged as a
    portal anywhere in the surface collection, so the range it returns is
    that collection; as the checker's own comment says, it can hold surfaces
    other than portals. *)
Definition portals (det : detector) : list surface_desc := surfaces det.

Definition surface_id_eq_dec (a b : surface_id) : {a = b} + {a <> b}.
Proof. decide equality. Defined.

Definition typed_index_eq_dec (a b : typed_index) : {a = b} + {a <> b}.
Proof. decide equality; apply N.eq_dec. Defined.

Definition surface_desc_eq_dec (a b : surface_desc) : {a = b} + {a <> b}.
Proof.
  decide equality;
    try apply N.eq_dec; try apply surface_id_eq_dec;
    try apply typed_index_eq_dec.
  decide equality. apply typed_index_eq_dec.
Defined.

(** [operator==] on surfaces. *)
Definition surface_eqb (a b : surface_desc) : bool :=
  if surface_desc_eq_dec a b then true else false.

Definition material_eqb (a b : material) : bool :=
  match a, b with
  | vacuum, vacuum => true
  | substance x, substance y => String.eqb x y
  | _, _ => false
  end.

(** Modelled from the spec: the [operator bool] of a slab is declared
    outside the sources.  A slab is invalid if it is of vacuum or is
    otherwise empty. *)
Definition slab_bool (sl : material_slab) : bool :=
  negb (material_eqb (slab_material sl) vacuum)
  && negb (N.eqb (slab_thickness sl) 0).

(** What a stream receives, piece by piece. *)
Inductive piece :=
| text (t : string)
| newline
| number (n : N)
| show_surface (sf : surface_desc)
| show_volume (v : volume_desc)
| show_material (m : material)
| show_slab (sl : material_slab).

Definition diag := list piece.

Inductive exception :=
| runtime_error (what : diag)
| invalid_argument (what : diag).

Definition what (e : exception) : diag :=
  match e with runtime_error w => w | invalid_argument w => w end.

(** The result of a checking step: it returns, it throws one of the two
    exceptions above, or it reads a collection past its end, which is
    undefined for [operator[]] and is the [std::out_of_range] of [at]. *)
Inductive result (A : Type) :=
| ok (a : A)
| throws (e : exception)
| out_of_range.
Arguments ok {A} a.
Arguments throws {A} e.
Arguments out_of_range {A}.

Definition bind {A B} (x : result A) (k : A -> result B) : result B :=
  match x with
  | ok a => k a
  | throws e => throws e
  | out_of_range => out_of_range
  end.

Definition at_index {A} (l : list A) (i : dindex) : result A :=
  match nth_error l (N.to_nat i) with
  | Some a => ok a
  | None => out_of_range
  end.

End detector_model.

(** ** [consistency_checker.hpp] *)
Module consistency_checker.
Import detector_model.

Local Open Scope N_scope.

(** [report_empty]: one warning line for every empty collection of a
    store ([coll_empty] stands for [store.empty<id>()]). *)
Fixpoint report_empty_from {C} (coll_empty : C -> bool) (store : list C)
         (store_name : string) (i : N) : list diag :=
  match store with
  | [] => []
  | c :: rest =>
      (if coll_empty c
       then [[text "WARNING: "; text store_name;
              text " has empty collection no. "; number i]]
       else [])
      ++ report_empty_from coll_empty rest store_name (N.succ i)
  end.

Definition report_empty {C} (coll_empty : C -> bool) (store : list C)
           (store_name : string) : list diag :=
  report_empty_from coll_empty store store_name 0.

Definition list_empty {A} (l : list A) : bool :=
  match l with [] => true | _ => false end.

Definition material_coll_empty (c : material_coll) : bool :=
  match c with
  | material_maps l => list_empty l
  | hom_volume_material l => list_empty l
  | hom_surface_material l => list_empty l
  end.

(** [store.all_empty()] *)
Definition all_empty {C} (coll_empty : C -> bool) (store : list C) : bool :=
  forallb coll_empty store.

(** The [find_portals] lambda of [check_empty]. *)
Definition find_portals (det : detector) : bool :=
  if list_empty (portals det) then false
  else existsb is_portal (portals det).

(** The [find_volumes] lambda of [check_empty]. *)
Definition find_volumes (vf : list dindex) : bool :=
  existsb (fun v => negb (is_invalid_value v)) vf.

Definition no_volumes : exception :=
  runtime_error [text "ERROR: No volumes in detector"].
Definition no_surfaces : exception :=
  runtime_error [text "ERROR: No surfaces found"].
Definition no_transforms : exception :=
  runtime_error [text "ERROR: No transforms in detector"].
Definition no_masks : exception :=
  runtime_error [text "ERROR: No masks in detector"].
Definition no_portals : exception :=
  runtime_error [text "ERROR: No portals in detector"].

Definition no_material_warning : diag :=
  [text "WARNING: No material in detector"].
Definition no_volume_finder_warning : diag :=
  [text "WARNING: No entries in volume finder"].

(** The warnings of [check_empty], in the order they are printed. *)
Definition check_empty_warnings (det : detector) (verbose : bool)
  : list diag :=
  (if all_empty material_coll_empty (material_store det)
   then [no_material_warning]
   else if verbose
        then report_empty material_coll_empty (material_store det)
                          "material store"
        else [])
  ++ (if verbose
      then report_empty list_empty (mask_store det) "mask store"
           ++ report_empty list_empty (accelerator_store det)
                           "acceleration data structures store"
      else [])
  ++ (if negb (find_volumes (volume_search_grid det))
      then [no_volume_finder_warning]
      else []).

(** [check_empty]: the fatal checks, then the lines written to
    [std::cout]. *)
Definition check_empty (det : detector) (verbose : bool)
  : result (list diag) :=
  if list_empty (volumes det) then throws no_volumes
  else if list_empty (surfaces det) then throws no_surfaces
  else if list_empty (transform_store det) then throws no_transforms
  else if all_empty list_empty (mask_store det) then throws no_masks
  else if negb (find_portals det) then throws no_portals
  else ok (check_empty_warnings det verbose).

(** [surface::volume_link()]: the volume link of the surface's mask. *)
Definition surface_volume_link (det : detector) (sf : surface_desc)
  : result dindex :=
  bind (at_index (mask_store det) (id (sf_mask sf))) (fun coll =>
  bind (at_index coll (index (sf_mask sf))) (fun m =>
  ok (helix_cylinder.volume_link m))).

(** [detector::surface(barcode)]: the entry of the surface lookup. *)
Definition surface_lookup (det : detector) (sf : surface_desc)
  : result surface_desc :=
  at_index (surfaces det) (sf_index sf).

(** Applying a functor to every surface of one acceleration structure,
    and [visit_surfaces]: to every surface of every structure that the
    volume links to; an invalid link is skipped. *)
Fixpoint visit_each {St} (f : surface_desc -> St -> result St)
         (sfs : list surface_desc) (st : St) : result St :=
  match sfs with
  | [] => ok st
  | sf :: rest => bind (f sf st) (visit_each f rest)
  end.

Definition accel_lookup (det : detector) (l : typed_index)
  : result (list surface_desc) :=
  bind (at_index (accelerator_store det) (id l)) (fun coll =>
  at_index coll (index l)).

Fixpoint visit_links {St} (f : surface_desc -> St -> result St)
         (det : detector) (links : list typed_index) (st : St)
  : result St :=
  match links with
  | [] => ok st
  | l :: rest =>
      if is_invalid_value (index l) then visit_links f det rest st
      else bind (accel_lookup det l) (fun sfs =>
           bind (visit_each f sfs st) (visit_links f det rest))
  end.

Definition visit_surfaces {St} (f : surface_desc -> St -> result St)
           (det : detector) (vol : volume_desc) (st : St) : result St :=
  visit_links f det (vol_accel_links vol) st.

(** [material_checker::throw_material_error] *)
Definition throw_material_error {A} (type : diag) (idx : dindex)
           (mat : piece) : result A :=
  throws (invalid_argument
            ([text "Invalid material found in: "] ++ type
             ++ [text " at index "; number idx; text ": "; mat])).

Definition map_all (mat_map : material_map) : list material_slab :=
  List.concat (bins mat_map).

(** [material_checker::operator()], both overloads: material maps, and
    homogeneous material. *)
Definition material_checker (material_coll : material_coll) (idx : dindex)
           (id : N) : result unit :=
  match material_coll with
  | material_maps maps =>
      bind (at_index maps idx) (fun mat_map =>
      if N.of_nat (List.length (map_all mat_map)) =? 0
      then throws (invalid_argument
                     [text "Empty material grid: "; number id;
                      text " at index "; number idx])
      else if existsb list_empty (bins mat_map)
      then throws (invalid_argument
                     [text "Empty material bin: "; number id;
                      text " at index "; number idx])
      else match find (fun slab => negb (slab_bool slab)) (map_all mat_map)
           with
           | Some slab =>
               throw_material_error
                 [text "material map (type id "; number id; text ")"]
                 idx (show_slab slab)
           | None => ok tt
           end)
  | hom_volume_material mats =>
      bind (at_index mats idx) (fun mat =>
      if material_eqb mat vacuum
      then throw_material_error [text "homogeneous volume material"]
                                idx (show_material mat)
      else ok tt)
  | hom_surface_material slabs =>
      bind (at_index slabs idx) (fun mat =>
      if negb (slab_bool mat)
      then throw_material_error [text "homogeneous surface material"]
                                idx (show_slab mat)
      else ok tt)
  end.

(** [visit_material<material_checker>(link.id())] *)
Definition visit_material (det : detector) (l : typed_index) : result unit :=
  bind (at_index (material_store det) (id l)) (fun coll =>
  material_checker coll (index l) (id l)).

Definition check_material (det : detector) (l : option typed_index)
  : result unit :=
  match l with
  | Some l => visit_material det l
  | None => ok tt
  end.

Definition not_registered_text : string :=
  "ERROR: Found surface that is not part of its volume's navigation acceleration data structures:".

Section checker.
(** [surface::self_check] and [detector_volume::self_check] are declared
    outside the sources: each returns whether the check passed and what
    it wrote to the error stream. *)
Variable surface_self_check : detector -> surface_desc -> bool * diag.
Variable volume_self_check : detector -> volume_desc -> bool * diag.

(** [surface_checker::operator()(sf_descr, det, vol_idx)] *)
Definition surface_checker (sf_descr : surface_desc) (det : detector)
           (vol_idx : dindex) : result unit :=
  let (passed, err_stream) := surface_self_check det sf_descr in
  if negb passed then throws (invalid_argument err_stream)
  else if negb (sf_volume sf_descr =? vol_idx)
  then throws (invalid_argument
                 (err_stream
                  ++ [text "ERROR: Incorrect volume index on surface: vol ";
                      number vol_idx; text ", sf: ";
                      show_surface sf_descr]))
  else
    bind (surface_volume_link det sf_descr) (fun vlink =>
    if negb (is_invalid_value vlink)
       && (N.of_nat (List.length (volumes det)) <=? vlink)
    then throws (invalid_argument
                   (err_stream
                    ++ [text "ERROR: Incorrect volume link to non-existent volume ";
                        number vlink]))
    else
      bind (surface_lookup det sf_descr) (fun sf_from_lkp =>
      if negb (surface_eqb sf_from_lkp sf_descr)
      then throws (runtime_error
                     (err_stream
                      ++ [text "ERROR: Surfaces in volume and detector lookups ";
                          text "differ:"; newline;
                          text " In volume acceleration data structure: ";
                          show_surface sf_descr; newline;
                          text "In detector surface lookup: ";
                          show_surface sf_from_lkp]))
      else ok tt)).

(** [surface_checker::operator()(ref_descr, check_descr, success, det)];
    the result is the new value of [success]. *)
Definition surface_finder (check_descr : surface_desc)
           (ref_descr : surface_desc) (success : bool) : result bool :=
  if negb (sf_volume ref_descr =? sf_volume check_descr)
  then throws (invalid_argument
                 [text "Incorrect volume index on surface: ";
                  show_surface check_descr])
  else if surface_eqb ref_descr check_descr then ok true
  else ok success.

(** The body of the loop over the volumes. *)
Definition check_volume (det : detector) (idx : dindex)
           (vol_desc : volume_desc) (err_stream : diag) : result diag :=
  let (passed, out) := volume_self_check det vol_desc in
  let err_stream := err_stream ++ out in
  if negb passed then throws (invalid_argument err_stream)
  else if negb (vol_index vol_desc =? idx)
  then throws (invalid_argument
                 (err_stream
                  ++ [text "ERROR: Incorrect volume index! Found volume:";
                      newline; show_volume vol_desc; newline;
                      text "at index "; number idx]))
  else
    bind (visit_surfaces
            (fun sf _ => surface_checker sf det (vol_index vol_desc))
            det vol_desc tt) (fun _ =>
    bind (check_material det (vol_material vol_desc)) (fun _ =>
    ok err_stream)).

Fixpoint check_volumes (det : detector) (idx : dindex)
         (vols : list volume_desc) (err_stream : diag) : result diag :=
  match vols with
  | [] => ok err_stream
  | vol_desc :: rest =>
      bind (check_volume det idx vol_desc err_stream)
           (check_volumes det (N.succ idx) rest)
  end.

(** The body of the loop over the surface lookup. *)
Definition check_surface (det : detector) (idx : dindex)
           (sf_desc : surface_desc) (err_stream : diag) : result diag :=
  let (passed, out) := surface_self_check det sf_desc in
  let err_stream := err_stream ++ out in
  if negb passed
  then throws (invalid_argument
                 (err_stream
                  ++ [newline; text "at surface no. "; number idx]))
  else if negb (sf_index sf_desc =? idx)
  then throws (invalid_argument
                 (err_stream
                  ++ [text "ERROR: Incorrect surface index! Found surface:";
                      newline; show_surface sf_desc; newline;
                      text "at index "; number idx]))
  else
    bind (at_index (volumes det) (sf_volume sf_desc)) (fun vol =>
    bind (visit_surfaces (surface_finder sf_desc) det vol false)
         (fun is_registered =>
    if negb is_registered
    then throws (invalid_argument
                   (err_stream
                    ++ [text not_registered_text; newline;
                        text "Surface: "; show_surface sf_desc]))
    else
      bind (check_material det (sf_material sf_desc)) (fun _ =>
      ok err_stream))).

Fixpoint check_surfaces (det : detector) (idx : dindex)
         (sfs : list surface_desc) (err_stream : diag) : result diag :=
  match sfs with
  | [] => ok err_stream
  | sf_desc :: rest =>
      bind (check_surface det idx sf_desc err_stream)
           (check_surfaces det (N.succ idx) rest)
  end.

(** [check_consistency]: what was written to [std::cout], and the
    result. *)
Definition check_consistency (det : detector) (verbose : bool)
  : list diag * result bool :=
  match check_empty det verbose with
  | ok cout =>
      (cout,
       bind (check_volumes det 0 (volumes det) []) (fun err_stream =>
       bind (check_surfaces det 0 (surfaces det) err_stream) (fun _ =>
       ok true)))
  | throws e => ([], throws e)
  | out_of_range => ([], out_of_range)
  end.

End checker.

End consistency_checker.

(** ** Detectors for evaluation *)
Module examples.
Import detector_model consistency_checker.

Local Open Scope N_scope.

(** Self-checks that reject a descriptor whose own index is invalid. *)
Definition plain_surface_self_check (det : detector) (sf : surface_desc)
  : bool * diag :=
  if is_invalid_value (sf_volume sf)
  then (false, [text "ERROR: Surface without volume: "; show_surface sf])
  else (true, []).

Definition plain_volume_self_check (det : detector) (v : volume_desc)
  : bool * diag :=
  if is_invalid_value (vol_index v)
  then (false, [text "ERROR: Volume without index: "; show_volume v])
  else (true, []).

Definition portal0 : surface_desc := mk_surface 0 0 e_portal (mk_link 0 0) None.
Definition sensitive1 : surface_desc :=
  mk_surface 0 1 e_sensitive (mk_link 0 0) None.
Definition sensitive2 : surface_desc :=
  mk_surface 0 2 e_sensitive (mk_link 0 0) None.

Definition unit_cylinder : helix_cylinder.mask :=
  helix_cylinder.cylinder_mask (lit 1) 0.

(** One volume, one portal in its brute-force structure, one transform,
    one mask, and no material at all. *)
Definition toy_detector : detector :=
  mk_detector [mk_volume 0 None [mk_link 0 0]]
              [portal0]
              [identity_transform]
              [[unit_cylinder]]
              []
              [[[portal0]]]
              [0].

(** The same detector without its volume. *)
Definition no_volume_detector : detector :=
  mk_detector [] [portal0] [identity_transform] [[unit_cylinder]] []
              [[[portal0]]] [0].

(** One volume with one sensitive surface, and no transform. *)
Definition no_transform_detector : detector :=
  mk_detector [mk_volume 0 None [mk_link 0 0]]
              [sensitive1]
              []
              [[unit_cylinder]]
              []
              [[[sensitive1]]]
              [0].

(** The portal is the last surface of the surface collection. *)
Definition portal_last_detector : detector :=
  mk_detector [mk_volume 0 None [mk_link 0 0]]
              [sensitive1; portal0]
              [identity_transform]
              [[unit_cylinder]]
              []
              [[[sensitive1; portal0]]]
              [0].

(** [sensitive1] is in the surface lookup but in no acceleration
    structure of volume 0. *)
Definition orphan_detector : detector :=
  mk_detector [mk_volume 0 None [mk_link 0 0]]
              [portal0; sensitive1]
              [identity_transform]
              [[unit_cylinder]]
              []
              [[[portal0]]]
              [0].

(** Two such surfaces. *)
Definition two_orphans_detector : detector :=
  mk_detector [mk_volume 0 None [mk_link 0 0]]
              [portal0; sensitive1; sensitive2]
              [identity_transform]
              [[unit_cylinder]]
              []
              [[[portal0]]]
              [0].

(** A rotation by the 3-4-5 angle about the z axis followed by a
    translation, with its inverse. *)
Definition rotated_placement : transform3 :=
  affine (mk_point3 (lit (3 # 5)) (lit (4 # 5)) (lit 0))
         (mk_point3 (lit (-4 # 5)) (lit (3 # 5)) (lit 0))
         (mk_point3 (lit 0) (lit 0) (lit 1))
         (mk_point3 (lit 1) (lit 2) (lit 3))
         (mk_point3 (lit (3 # 5)) (lit (-4 # 5)) (lit 0))
         (mk_point3 (lit (4 # 5)) (lit (3 # 5)) (lit 0))
         (mk_point3 (lit 0) (lit 0) (lit 1))
         (mk_point3 (lit (-11 # 5)) (lit (-2 # 5)) (lit (-3))).

End examples.

(** ** [type_info.hpp]: io ids of shapes and grids *)
Module type_info.

(** The C++ types that the registries and their callers name. *)
Inductive type_name :=
| void_t
(* shapes *)
| annulus2D | cuboid3D | cylinder2D | cylinder3D | concentric_cylinder2D
| rectangle2D | ring2D | trapezoid2D | wire_cell | straw_tube
| single3D (axis : N)
(* local frames *)
| cartesian2_t | cartesian3_t | polar2_t | concentric_cylindrical2_t
| cylindrical2_t | cylindrical3_t
(* any other type *)
| other_type (name : string).

Definition type_name_eq_dec (a b : type_name) : {a = b} + {a <> b}.
Proof. decide equality; [apply N.eq_dec | apply string_dec]. Defined.

Definition same_type (a b : type_name) : bool :=
  if type_name_eq_dec a b then true else false.

(** Modelled from the spec: [type_registry] is declared outside the
    sources.  It is a compile-time mapping between a closed list of types
    and small integer ids: a registered type has the id of its position in
    the list, and any other type has [e_unknown], one past [n_types]. *)
Definition type_registry := list type_name.

Fixpoint position (t : type_name) (reg : type_registry) : option nat :=
  match reg with
  | [] => None
  | first_t :: remaining =>
      if same_type first_t t then Some O
      else option_map S (position t remaining)
  end.

Definition registry_is_defined (reg : type_registry) (t : type_name) : bool :=
  match position t reg with Some _ => true | None => false end.

Section ids.
(** The enumerations [io::shape_id] and [io::accel_id] are declared
    outside the sources: [ID] is such an enumeration, [of_index] the
    [static_cast] from an integer and [unknown] its enumerator of that
    name. *)
Variable ID : Type.
Variable of_index : nat -> ID.
Variable unknown : ID.

Definition registry_get_id (reg : type_registry) (t : type_name) : ID :=
  match position t reg with
  | Some i => of_index i
  | None => of_index (S (List.length reg))
  end.

Definition shape_registry : type_registry :=
  [annulus2D; cuboid3D; cylinder2D; cylinder3D; concentric_cylinder2D;
   rectangle2D; ring2D; trapezoid2D; wire_cell; straw_tube;
   single3D 0; single3D 1; single3D 2].

(** [get_id<shape_t>()] *)
Definition get_id_shape (shape_t : type_name) : ID :=
  if registry_is_defined shape_registry shape_t
  then registry_get_id shape_registry shape_t
  else unknown.

(** A grid type, read through its [local_frame_type]. *)
Record grid_type := mk_grid { local_frame_type : type_name }.

Definition frame_registry : type_registry :=
  [void_t; cartesian2_t; cartesian3_t; polar2_t;
   concentric_cylindrical2_t; cylindrical2_t; cylindrical3_t].

(** [get_id<grid_t>()] *)
Definition get_id_grid (grid_t : grid_type) : ID :=
  let frame_t := local_frame_type grid_t in
  if registry_is_defined frame_registry frame_t
  then registry_get_id frame_registry frame_t
  else unknown.
End ids.

Arguments registry_get_id {ID} of_index reg t.
Arguments get_id_shape {ID} of_index unknown shape_t.
Arguments get_id_grid {ID} of_index unknown grid_t.

(** An enumeration for evaluation: the ids are numbers, [unknown] is the
    number of registered shapes ([n_shapes]), respectively of registered
    acceleration structures. *)
Definition shape_unknown : nat := 13.
Definition accel_unknown : nat := 7.

End type_info.

(** ** [cartesian2]: the rotation blocks of the Jacobians *)
Module cartesian2_rotation.

Local Open Scope Qc_scope.

(** [matrix_operator().block<ROWS, COLS>(m, row, col)]: the block of [m]
    whose first element is the element [(row, col)] of [m]. *)
Definition block (m : matrix) (row col : nat) : matrix :=
  fun i j => m (row + i)%nat (col + j)%nat.

(** [matrix_operator().transpose] *)
Definition transpose (m : matrix) : matrix := fun i j => m j i.

(** [bound_to_free_rotation(trf3, t)]: d(x,y,z)/d(loc0, loc1), the 3x2
    block at the origin of the matrix; the trigonometrics are not used. *)
Definition bound_to_free_rotation (trf3 : transform3) : matrix :=
  block (trf_matrix trf3) 0 0.

(** [free_to_bound_rotation(trf3, t)]: d(loc0, loc1)/d(x,y,z), the 2x3
    block at the origin of the transposed matrix of the transform. *)
Definition free_to_bound_rotation (trf3 : transform3) : matrix :=
  let trf3T := transpose (trf_matrix trf3) in
  block trf3T 0 0.

(** [getter::element(m, i, j)] *)
Definition element (m : matrix) (i j : nat) : scalar := m i j.

(** A 3x2 matrix applied to a local point, and the product of a 2x3 with a
    3x2 matrix. *)
Definition apply_3x2 (a : matrix) (p : point2) : vector3 :=
  mk_point3 (element a 0 0 * p2_0 p + element a 0 1 * p2_1 p)
            (element a 1 0 * p2_0 p + element a 1 1 * p2_1 p)
            (element a 2 0 * p2_0 p + element a 2 1 * p2_1 p).

Definition product_2x3_3x2 (a b : matrix) : matrix :=
  fun i j => element a i 0 * element b 0 j + element a i 1 * element b 1 j
             + element a i 2 * element b 2 j.

End cartesian2_rotation.

(** ** What the consistency checker accepts

    The conditions that the passes of [check_consistency] test, as
    propositions. *)
Module accepted.
Import detector_model consistency_checker.

(** The tests of [surface_checker::operator()(sf_descr, det, vol_idx)]. *)
Definition surface_in_place
           (surface_self_check : detector -> surface_desc -> bool * diag)
           (det : detector) (idx : dindex) (sf : surface_desc) : Prop :=
  fst (surface_self_check det sf) = true
  /\ sf_volume sf = idx
  /\ (exists vlink,
         surface_volume_link det sf = ok vlink
         /\ (is_invalid_value vlink = true
             \/ (vlink < N.of_nat (List.length (volumes det)))%N))
  /\ surface_lookup det sf = ok sf.

(** The tests of the loop over the volumes, for the volume at [idx]. *)
Definition volume_in_place
           (surface_self_check : detector -> surface_desc -> bool * diag)
           (volume_self_check : detector -> volume_desc -> bool * diag)
           (det : detector) (idx : dindex) (vol : volume_desc) : Prop :=
  fst (volume_self_check det vol) = true
  /\ vol_index vol = idx
  /\ (forall l, In l (vol_accel_links vol) ->
                is_invalid_value (index l) = false ->
                exists sfs,
                  accel_lookup det l = ok sfs
                  /\ forall ref, In ref sfs ->
                                 surface_in_place surface_self_check det
                                                  (vol_index vol) ref)
  /\ check_material det (vol_material vol) = ok tt.

(** The surface is held by an acceleration structure of its volume. *)
Definition surface_registered (det : detector) (sf : surface_desc) : Prop :=
  exists vol l sfs,
    at_index (volumes det) (sf_volume sf) = ok vol
    /\ In l (vol_accel_links vol)
    /\ is_invalid_value (index l) = false
    /\ accel_lookup det l = ok sfs
    /\ In sf sfs.

(** The tests of the loop over the surface lookup, for the entry at
    [idx]. *)
Definition lookup_entry_in_place
           (surface_self_check : detector -> surface_desc -> bool * diag)
           (det : detector) (idx : dindex) (sf : surface_desc) : Prop :=
  fst (surface_self_check det sf) = true
  /\ sf_index sf = idx
  /\ surface_registered det sf
  /\ check_material det (sf_material sf) = ok tt.

End accepted.

(** ** [type_info.hpp]: material ids and mask information *)
Module type_info_more.
Import type_info.

(** The homogeneous material types, which [type_name] lists among the
    other types. *)
Definition material_slab_t : type_name := other_type "material_slab".
Definition material_rod_t : type_name := other_type "material_rod".
Definition material_t : type_name := other_type "material".

Section ids.
Variable ID : Type.
Variable of_index : nat -> ID.
Variable unknown : ID.

Definition hom_material_registry : type_registry :=
  [void_t; void_t; void_t; void_t; void_t; void_t;
   material_slab_t; material_rod_t; material_t].

(** [get_id<material_t>()] for homogeneous material. *)
Definition get_id_hom_material (material_t : type_name) : ID :=
  if registry_is_defined hom_material_registry material_t
  then registry_get_id of_index hom_material_registry material_t
  else unknown.

Definition material_map_registry : type_registry :=
  [polar2_t; cartesian2_t; cartesian3_t; concentric_cylindrical2_t;
   cylindrical2_t; cylindrical3_t; void_t; void_t].

(** [get_id<material_t>()] for material maps, read through the local frame
    of the map. *)
Definition get_id_material_map (material_t : grid_type) : ID :=
  let map_frame_t := local_frame_type material_t in
  if registry_is_defined material_map_registry map_frame_t
  then registry_get_id of_index material_map_registry map_frame_t
  else unknown.
End ids.

Arguments get_id_hom_material {ID} of_index unknown material_t.
Arguments get_id_material_map {ID} of_index unknown material_t.

(** The enumerators of [io::shape_id] that [mask_info] is specialised
    for, and any other value of the enumeration. *)
Inductive io_shape_id :=
| annulus2 | cylinder2 | portal_cylinder2 | cell_wire | straw_wire
| rectangle2 | ring2 | single1 | single2 | single3 | trapezoid2
| other_shape_id (value : N).

(** The enumerators of [detector_t::masks::id] that [mask_info] names,
    and its invalid value. *)
Inductive detector_mask_id :=
| e_annulus2 | e_cylinder2 | e_portal_cylinder2 | e_cell_wire | e_straw_wire
| e_rectangle2 | e_portal_ring2 | e_single1 | e_single2 | e_single3
| e_trapezoid2
| invalid_mask_id.

(** [mask_info<shape, detector_t>]: its [type] and its [value].
    [masks_is_defined shape_t] stands for
    [detector_t::masks::is_defined<mask<shape_t, std::uint_least16_t>>()]. *)
Definition mask_info (shape : io_shape_id)
           (masks_is_defined : type_name -> bool)
  : type_name * detector_mask_id :=
  let specialised (shape_t : type_name) (value : detector_mask_id) :=
    if masks_is_defined shape_t then (shape_t, value)
    else (void_t, invalid_mask_id) in
  match shape with
  | annulus2 => specialised annulus2D e_annulus2
  | cylinder2 => specialised cylinder2D e_cylinder2
  | portal_cylinder2 => specialised concentric_cylinder2D e_portal_cylinder2
  | cell_wire => specialised wire_cell e_cell_wire
  | straw_wire => specialised straw_tube e_straw_wire
  | rectangle2 => specialised rectangle2D e_rectangle2
  | ring2 => specialised ring2D e_portal_ring2
  | single1 => specialised (single3D 0) e_single1
  | single2 => specialised (single3D 1) e_single2
  | single3 => specialised (single3D 2) e_single3
  | trapezoid2 => specialised trapezoid2D e_trapezoid2
  | other_shape_id _ => (void_t, invalid_mask_id)
  end.

End type_info_more.

(** ** [material_map_writer.hpp] *)
Module material_map_writer.
Import detector_model.

Local Open Scope N_scope.

(** Subtraction of two [dindex] values, an unsigned 32-bit type. *)
Definition dindex_sub (a b : dindex) : dindex :=
  (a + 4294967296 - b) mod 4294967296.

Section writer.
(** [detector_grids_payload<material_slab_payload, io::material_id>] *)
Variable payload_type : Type.
(** The default-constructed payload. *)
Variable empty_payload : payload_type.
(** [tracking_volume::surfaces()], the surfaces of a volume, and
    [is_invalid()] of a typed link are declared outside the sources. *)
Variable vol_surfaces : detector -> volume_desc -> list surface_desc.
Variable link_is_invalid : typed_index -> bool.
(** [grid_writer::to_payload(store, link, volume index, local surface
    index, grids_data, converter)], which is declared outside the sources:
    the writer passes the payload through it.  The converter is the lambda
    that captures the surface descriptor to pass on its index; it is given
    here as that index. *)
Variable grid_to_payload :
  list material_coll -> typed_index -> dindex -> dindex -> dindex ->
  payload_type -> payload_type.

(** The body of the loop over the surfaces of a volume, on the pair of
    [offset] and [grids_data].  A link without material ([None], the id
    [e_none]) or an invalid link is passed over. *)
Definition surface_step (det : detector) (vol_desc : volume_desc)
           (st : dindex * payload_type) (sf_desc : surface_desc)
  : dindex * payload_type :=
  let (offset, grids_data) := st in
  let offset := if sf_index sf_desc <? offset then sf_index sf_desc
                else offset in
  match sf_material sf_desc with
  | None => (offset, grids_data)
  | Some mat_link =>
      if link_is_invalid mat_link then (offset, grids_data)
      else (offset,
            grid_to_payload (material_store det) mat_link
                            (vol_index vol_desc)
                            (dindex_sub (sf_index sf_desc) offset)
                            (sf_index sf_desc)
                            grids_data)
  end.

(** The body of the loop over the volumes. *)
Definition volume_step (det : detector) (grids_data : payload_type)
           (vol_desc : volume_desc) : payload_type :=
  snd (fold_left (surface_step det vol_desc) (vol_surfaces det vol_desc)
                 (dindex_invalid, grids_data)).

(** [material_map_writer::to_payload(det, names)]; the name map is not
    used. *)
Definition to_payload (det : detector) : payload_type :=
  fold_left (volume_step det) (volumes det) empty_payload.

End writer.

Arguments surface_step {payload_type} link_is_invalid grid_to_payload
  det vol_desc st sf_desc.
Arguments volume_step {payload_type} vol_surfaces link_is_invalid
  grid_to_payload det grids_data vol_desc.
Arguments to_payload {payload_type} empty_payload vol_surfaces
  link_is_invalid grid_to_payload det.

(** The calls of [grid_writer::to_payload], in the order they are made:
    the payload that records its arguments. *)
Record grid_call := mk_call {
  call_link : typed_index;
  call_volume : dindex;
  call_local_index : dindex;
  call_surface : dindex
}.

Definition record_call (store : list material_coll) (l : typed_index)
           (vol_idx loc_idx sf_idx : dindex) (calls : list grid_call)
  : list grid_call :=
  calls ++ [mk_call l vol_idx loc_idx sf_idx].

Definition to_payload_calls
           (vol_surfaces : detector -> volume_desc -> list surface_desc)
           (link_is_invalid : typed_index -> bool) (det : detector)
  : list grid_call :=
  to_payload [] vol_surfaces link_is_invalid record_call det.

(** A recorded call made again, on a payload. *)
Definition replay {payload_type : Type}
           (grid_to_payload :
              list material_coll -> typed_index -> dindex -> dindex ->
              dindex -> payload_type -> payload_type)
           (store : list material_coll) (grids_data : payload_type)
           (c : grid_call) : payload_type :=
  grid_to_payload store (call_link c) (call_volume c) (call_local_index c)
                  (call_surface c) grids_data.

(** A detector whose volume lists its surfaces from index 5 on: two
    carry a material map. *)
Definition with_material (idx link_idx : dindex) : surface_desc :=
  mk_surface 0 idx e_sensitive (mk_link 0 0) (Some (mk_link 1 link_idx)).

Definition writer_detector : detector :=
  mk_detector [mk_volume 0 None [mk_link 0 0]]
              [] [] [] [] [] [].

Definition writer_surfaces (det : detector) (vol : volume_desc)
  : list surface_desc :=
  [mk_surface 0 5 e_portal (mk_link 0 0) None;
   with_material 6 0; with_material 7 1].

End material_map_writer.

(** ** The intersector over the scalar type of its algebra

    [helix_cylinder_intersector] is a template over [transform3_t], and its
    [scalar_type] is the one of that algebra: [float] or [double] in the
    builds of the library.  The module [helix_cylinder] above fixes the
    scalars to exact rationals.  This module embeds the same [operator()]
    over any scalar type given with the operations and literals the code
    uses of it, so that what is proved of its control flow holds for every
    such type, and so that the code can be evaluated as it runs on [double]
    (the instance [binary64]). *)
Module any_scalar.

(** What the intersector uses of [scalar_type]: the four operations,
    [std::abs], [std::sqrt] (inside [getter::perp] and [getter::norm]),
    the comparisons [>] and [==], and its four literals. *)
Record arithmetic := mk_arithmetic {
  scalar_type : Type;
  s_add : scalar_type -> scalar_type -> scalar_type;
  s_sub : scalar_type -> scalar_type -> scalar_type;
  s_mul : scalar_type -> scalar_type -> scalar_type;
  s_div : scalar_type -> scalar_type -> scalar_type;
  s_abs : scalar_type -> scalar_type;
  s_sqrt : scalar_type -> scalar_type;
  s_gt : scalar_type -> scalar_type -> bool;      (* [a > b] *)
  s_eq : scalar_type -> scalar_type -> bool;      (* [a == b] *)
  lit_0 : scalar_type;                            (* [scalar_type{0.}] *)
  lit_2 : scalar_type;                            (* [scalar_type{2.}] *)
  lit_0_1 : scalar_type;                          (* [scalar{0.1}] *)
  lit_1e_3 : scalar_type                          (* [scalar_type{1e-3}] *)
}.

Section over_scalar.
Variable A : arithmetic.

Record point2 := mk_point2 { p2_0 : scalar_type A; p2_1 : scalar_type A }.
Record point3 := mk_point3 {
  p3_0 : scalar_type A; p3_1 : scalar_type A; p3_2 : scalar_type A
}.
Definition vector3 := point3.

Definition vsub (a b : point3) : vector3 :=
  mk_point3 (s_sub A (p3_0 a) (p3_0 b)) (s_sub A (p3_1 a) (p3_1 b))
            (s_sub A (p3_2 a) (p3_2 b)).

Definition vadd (a b : point3) : point3 :=
  mk_point3 (s_add A (p3_0 a) (p3_0 b)) (s_add A (p3_1 a) (p3_1 b))
            (s_add A (p3_2 a) (p3_2 b)).

Definition vscale (k : scalar_type A) (a : vector3) : vector3 :=
  mk_point3 (s_mul A k (p3_0 a)) (s_mul A k (p3_1 a)) (s_mul A k (p3_2 a)).

(** [vector::cross] *)
Definition cross (a b : vector3) : vector3 :=
  mk_point3 (s_sub A (s_mul A (p3_1 a) (p3_2 b)) (s_mul A (p3_2 a) (p3_1 b)))
            (s_sub A (s_mul A (p3_2 a) (p3_0 b)) (s_mul A (p3_0 a) (p3_2 b)))
            (s_sub A (s_mul A (p3_0 a) (p3_1 b)) (s_mul A (p3_1 a) (p3_0 b))).

(** [vector::dot] *)
Definition dot (a b : vector3) : scalar_type A :=
  s_add A (s_add A (s_mul A (p3_0 a) (p3_0 b)) (s_mul A (p3_1 a) (p3_1 b)))
          (s_mul A (p3_2 a) (p3_2 b)).

(** [getter::perp] and [getter::norm] *)
Definition perp (v : vector3) : scalar_type A :=
  s_sqrt A (s_add A (s_mul A (p3_0 v) (p3_0 v)) (s_mul A (p3_1 v) (p3_1 v))).

Definition norm (v : vector3) : scalar_type A := s_sqrt A (dot v v).

(** All three components compare equal to zero. *)
Definition is_zero_vector (v : vector3) : bool :=
  s_eq A (p3_0 v) (lit_0 A) && s_eq A (p3_1 v) (lit_0 A)
  && s_eq A (p3_2 v) (lit_0 A).

Definition matrix := nat -> nat -> scalar_type A.

Definition getter_vector3 (m : matrix) (row col : nat) : vector3 :=
  mk_point3 (m row col) (m (S row) col) (m (S (S row)) col).

Record transform3 := mk_transform3 {
  trf_matrix : matrix;
  point_to_local : point3 -> point3;
  point_to_global : point3 -> point3
}.

(** [detail::helix<transform3_t>] *)
Record helix := mk_helix {
  pos : scalar_type A -> point3;
  dir : scalar_type A -> vector3
}.

(** [mask_t] *)
Record mask := mk_mask {
  mask_values : nat -> scalar_type A;
  is_inside :
    point3 -> scalar_type A -> helix_cylinder.intersection_status;
  volume_link : N;
  local_frame_global_to_local : transform3 -> point3 -> vector3 -> point2
}.

(** [line_plane_intersection]; a member is [None] until it is assigned. *)
Record intersection := mk_intersection {
  path : option (scalar_type A);
  p3 : option point3;
  p2 : option point2;
  status : option helix_cylinder.intersection_status;
  direction : option helix_cylinder.intersection_direction;
  link : option N
}.

Definition default_intersection : intersection :=
  mk_intersection None None None None None None.

Definition output_type := (intersection * intersection)%type.

Definition max_n_tries : nat := 100.
Definition tol : scalar_type A := lit_1e_3 A.

Record newton_state := mk_state {
  s : scalar_type A;
  s_prev : scalar_type A;
  n_tries : nat
}.

(** [std::abs(s - s_prev) > tol and n_tries < max_n_tries] *)
Definition loop_cond (st : newton_state) : bool :=
  s_gt A (s_abs A (s_sub A (s st) (s_prev st))) tol
  && (n_tries st <? max_n_tries)%nat.

Inductive loop_exit :=
| zero_denominator                (* [return ret] inside the loop *)
| loop_done (st : newton_state).  (* the loop condition became false *)

Section intersector.
Variables (h : helix) (m : mask) (trf : transform3).
Variable mask_tolerance : scalar_type A.

Definition sm : matrix := trf_matrix trf.
Definition sz : vector3 := getter_vector3 sm 0 2.
Definition sc : point3 := getter_vector3 sm 0 3.
Definition r : scalar_type A := mask_values m 0.

Definition crp_at (x : scalar_type A) : vector3 :=
  cross (vsub (pos h x) sc) sz.

Definition denom_at (x : scalar_type A) : scalar_type A :=
  s_mul A (lit_2 A) (dot (crp_at x) (cross (dir h x) sz)).

(** [f(s)], the numerator of the update. *)
Definition f_at (x : scalar_type A) : scalar_type A :=
  s_sub A (dot (crp_at x) (crp_at x)) (s_mul A r r).

(** One pass through the loop body: [None] is the early [return ret]. *)
Definition newton_step (st : newton_state) : option newton_state :=
  let denom := denom_at (s st) in
  if s_eq A denom (lit_0 A) then None
  else Some (mk_state (s_sub A (s st) (s_div A (f_at (s st)) denom))
                      (s st)
                      (S (n_tries st))).

Fixpoint newton_loop (fuel : nat) (st : newton_state) : option loop_exit :=
  if loop_cond st then
    match fuel with
    | O => None
    | S fuel' =>
        match newton_step st with
        | None => Some zero_denominator
        | Some st' => newton_loop fuel' st'
        end
    end
  else Some (loop_done st).

(** The state after [k] passes through the loop body, if the loop makes
    that many. *)
Fixpoint newton_iterate (k : nat) (st : newton_state)
  : option newton_state :=
  match k with
  | O => Some st
  | S k' =>
      if loop_cond st then
        match newton_step st with
        | Some st' => newton_iterate k' st'
        | None => None
        end
      else None
  end.

Inductive loop_reaches (a : newton_state) : newton_state -> Prop :=
| reaches_start : loop_reaches a a
| reaches_pass b c :
    loop_reaches a b -> loop_cond b = true -> newton_step b = Some c ->
    loop_reaches a c.

(** The assignments to [ret[0]] after the loop. *)
Definition build_intersection (x : scalar_type A) : intersection :=
  let helix_pos := pos h x in
  let local3 := point_to_local trf helix_pos in
  mk_intersection
    (Some (norm helix_pos))
    (Some helix_pos)
    (Some (local_frame_global_to_local m trf helix_pos (dir h x)))
    (Some (is_inside m local3 mask_tolerance))
    (Some (if s_gt A (dot helix_pos (dir h x)) (lit_0 A)
           then helix_cylinder.e_along else helix_cylinder.e_opposite))
    (Some (volume_link m)).

Definition initial_state : newton_state :=
  let s0 := s_mul A r (perp (dir h tol)) in
  mk_state s0 (s_sub A s0 (lit_0_1 A)) 0.

Definition finish (ret : output_type) (e : loop_exit) : output_type :=
  match e with
  | zero_denominator => ret
  | loop_done st =>
      if (n_tries st =? max_n_tries)%nat then ret
      else (build_intersection (s st), snd ret)
  end.

(** [operator()] *)
Definition helix_cylinder_intersector : option output_type :=
  let ret := (default_intersection, default_intersection) in
  option_map (finish ret) (newton_loop max_n_tries initial_state).

End intersector.

(** A straight trajectory: position [p0 + s * d], constant direction. *)
Definition straight_line (p0 d : vector3) : helix :=
  mk_helix (fun x => vadd p0 (vscale x d)) (fun _ => d).

(** A cylinder mask of radius [radius] in a cartesian local frame: the
    radial test accepts a local point whose transverse length is within the
    tolerance of the radius. *)
Definition cylinder_mask (radius : scalar_type A) (vol_link : N) : mask :=
  mk_mask (fun _ => radius)
          (fun local3 t =>
             let d := s_abs A (s_sub A (perp local3) radius) in
             if s_gt A t d || s_eq A d t
             then helix_cylinder.inside else helix_cylinder.outside)
          vol_link
          (fun trf p _ =>
             mk_point2 (p3_0 (point_to_local trf p))
                       (p3_1 (point_to_local trf p))).

End over_scalar.

Arguments mk_point2 {A} _ _.
Arguments mk_point3 {A} _ _ _.
Arguments p3_0 {A} _.
Arguments p3_1 {A} _.
Arguments p3_2 {A} _.
Arguments mk_transform3 {A} _ _ _.
Arguments trf_matrix {A} _.
Arguments point_to_local {A} _ _.
Arguments mk_helix {A} _ _.
Arguments pos {A} _ _.
Arguments dir {A} _ _.
Arguments mk_mask {A} _ _ _ _.
Arguments mask_values {A} _ _.
Arguments path {A} _.
Arguments p3 {A} _.
Arguments p2 {A} _.
Arguments status {A} _.
Arguments direction {A} _.
Arguments link {A} _.
Arguments default_intersection {A}.
Arguments mk_state {A} _ _ _.
Arguments s {A} _.
Arguments s_prev {A} _.
Arguments n_tries {A} _.
Arguments loop_cond {A} _.
Arguments zero_denominator {A}.
Arguments loop_done {A} _.
Arguments cross {A} _ _.
Arguments dot {A} _ _.
Arguments vsub {A} _ _.
Arguments perp {A} _.
Arguments is_zero_vector {A} _.
Arguments norm {A} _.
Arguments sz {A} _.
Arguments sc {A} _.
Arguments r {A} _.
Arguments crp_at {A} _ _ _.
Arguments denom_at {A} _ _ _.
Arguments f_at {A} _ _ _ _.
Arguments newton_step {A} _ _ _ _.
Arguments newton_loop {A} _ _ _ _ _.
Arguments newton_iterate {A} _ _ _ _ _.
Arguments loop_reaches {A} _ _ _ _ _.
Arguments reaches_start {A} _ _ _ _.
Arguments reaches_pass {A} _ _ _ _ _ _ _ _ _.
Arguments build_intersection {A} _ _ _ _ _.
Arguments initial_state {A} _ _.
Arguments finish {A} _ _ _ _ _ _.
Arguments helix_cylinder_intersector {A} _ _ _ _.
Arguments straight_line {A} _ _.
Arguments cylinder_mask {A} _ _.

(** The arithmetic of the module [helix_cylinder]: exact rationals, with
    the square root as a parameter. *)
Definition rational (sqrt : Qc -> Qc) : arithmetic :=
  mk_arithmetic Qc Qcplus Qcminus Qcmult Qcdiv Qcabs sqrt
                algebra.gtb algebra.eqb
                (lit 0) (lit 2) (lit (1 # 10)) (lit (1 # 1000)).

(** The arithmetic of a [double]: IEEE 754 binary64 with rounding to
    nearest, its literals rounded as the compiler rounds them. *)
#[warnings="-inexact-float"]
Definition binary64 : arithmetic :=
  mk_arithmetic float PrimFloat.add PrimFloat.sub PrimFloat.mul PrimFloat.div
                PrimFloat.abs PrimFloat.sqrt
                (fun a b => PrimFloat.ltb b a) PrimFloat.eqb
                0%float 2%float 0.1%float 0.001%float.

(** No component is a NaN or an infinity. *)
Definition is_finite_vector (v : vector3 binary64) : bool :=
  PrimFloat.is_finite (p3_0 v) && PrimFloat.is_finite (p3_1 v)
  && PrimFloat.is_finite (p3_2 v).

(** *** Inputs for evaluation on [double] *)

(** The placement with the cylinder axis along the global z axis and its
    centre at the origin. *)
Definition identity_placement : transform3 binary64 :=
  mk_transform3 (A := binary64)
                (fun row col => if (row =? col)%nat then 1%float else 0%float)
                (fun p => p) (fun p => p).

(** The placement with the cylinder axis along the global x axis: local
    [(x, y, z)] is global [(z, x, y)]. *)
Definition axis_x_placement : transform3 binary64 :=
  mk_transform3 (A := binary64)
    (fun row col =>
       match row, col with
       | 1%nat, 0%nat | 2%nat, 1%nat | 0%nat, 2%nat | 3%nat, 3%nat => 1%float
       | _, _ => 0%float
       end)
    (fun g => mk_point3 (A := binary64) (p3_1 g) (p3_2 g) (p3_0 g))
    (fun l => mk_point3 (A := binary64) (p3_2 l) (p3_0 l) (p3_1 l)).

(** From the origin, almost along the cylinder axis: the direction
    [(2^-48, 0, 1)] has length 1 in [double].  The trajectory meets the
    cylinder of radius [2^-40] about the z axis at the path length 256. *)
Definition shallow_line : helix binary64 :=
  straight_line (A := binary64)
                (mk_point3 (A := binary64) 0%float 0%float 0%float)
                (mk_point3 (A := binary64) 0x1p-48%float 0%float 1%float).

Definition thin_cylinder : mask binary64 :=
  cylinder_mask (A := binary64) 0x1p-40%float 7.

(** From the origin along the x axis, against cylinders about the z axis:
    the seed [r * perp(dir)] is the path length of the crossing. *)
Definition axis_crossing_line : helix binary64 :=
  straight_line (A := binary64)
                (mk_point3 (A := binary64) 0%float 0%float 0%float)
                (mk_point3 (A := binary64) 1%float 0%float 0%float).

(** Along the x axis at the transverse distance [offset]. *)
Definition line_along_x (offset : float) : helix binary64 :=
  straight_line (A := binary64)
                (mk_point3 (A := binary64) 0%float offset 0%float)
                (mk_point3 (A := binary64) 1%float 0%float 0%float).

(** *** The rational model as an instance

    The inputs and the loop states of the module [helix_cylinder], read as
    inputs and states over [rational]. *)
Definition of_point3 (sqrt : Qc -> Qc) (p : algebra.point3)
  : point3 (rational sqrt) :=
  mk_point3 (A := rational sqrt)
            (algebra.p3_0 p) (algebra.p3_1 p) (algebra.p3_2 p).

Definition to_point3 (sqrt : Qc -> Qc) (p : point3 (rational sqrt))
  : algebra.point3 :=
  algebra.mk_point3 (p3_0 p) (p3_1 p) (p3_2 p).

Definition of_helix (sqrt : Qc -> Qc) (h : helix_cylinder.helix)
  : helix (rational sqrt) :=
  mk_helix (A := rational sqrt)
           (fun x => of_point3 sqrt (helix_cylinder.pos h x))
           (fun x => of_point3 sqrt (helix_cylinder.dir h x)).

Definition of_transform3 (sqrt : Qc -> Qc) (trf : algebra.transform3)
  : transform3 (rational sqrt) :=
  mk_transform3 (A := rational sqrt)
    (algebra.trf_matrix trf)
    (fun p => of_point3 sqrt (algebra.point_to_local trf (to_point3 sqrt p)))
    (fun p => of_point3 sqrt (algebra.point_to_global trf (to_point3 sqrt p))).

Definition of_state (sqrt : Qc -> Qc) (st : helix_cylinder.newton_state)
  : newton_state (rational sqrt) :=
  mk_state (A := rational sqrt)
           (helix_cylinder.s st) (helix_cylinder.s_prev st)
           (helix_cylinder.n_tries st).

Definition of_exit (sqrt : Qc -> Qc) (e : helix_cylinder.loop_exit)
  : loop_exit (rational sqrt) :=
  match e with
  | helix_cylinder.zero_denominator => zero_denominator
  | helix_cylinder.loop_done st => loop_done (of_state sqrt st)
  end.

End any_scalar.

(** * Properties *)

(** ** Frame projection *)

Import helix_cylinder.

(** Equations between scalars are decided on their rational values. *)
Ltac qc_to_q :=
  apply Qc_is_canon;
  unfold lit, Qcminus, Qcdiv, Qcplus, Qcmult, Qcopp, Qcinv, Q2Qc; cbn [this];
  repeat rewrite Qred_correct.

Lemma rotated_placement_inverse (q : point3) :
  point_to_local examples.rotated_placement
                 (point_to_global examples.rotated_placement q) = q.
Proof.
  destruct q as [x y z].
  unfold examples.rotated_placement, affine, point_to_local, point_to_global,
    apply_affine, vadd, vscale; cbn [p3_0 p3_1 p3_2].
  f_equal; qc_to_q; ring.
Qed.

(** C4. For the cartesian2 frame, for every transform whose
    [point_to_local] undoes its [point_to_global], every mask, every local
    2D point [p] and every direction [d], projecting the global image of [p]
    back into the frame gives [p] again. *)
Theorem cartesian2_round_trip
        (trf : transform3) (mask_t : Type) (mask : mask_t)
        (p : point2) (d : vector3) :
  (forall q, point_to_local trf (point_to_global trf q) = q) ->
  cartesian2.global_to_local trf (cartesian2.local_to_global trf mask p d) d
  = p.
Proof.
  intros Hinv.
  unfold cartesian2.global_to_local, cartesian2.local_to_global.
  rewrite Hinv.
  destruct p; reflexivity.
Qed.

Lemma cartesian2_round_trip_witness :
  cartesian2.global_to_local
    examples.rotated_placement
    (cartesian2.local_to_global examples.rotated_placement
       examples.unit_cylinder
       (mk_point2 (lit (7 # 2)) (lit (-5 # 3)))
       (mk_point3 (lit 0) (lit 0) (lit 1)))
    (mk_point3 (lit 0) (lit 0) (lit 1))
  = mk_point2 (lit (7 # 2)) (lit (-5 # 3)).
Proof.
  apply cartesian2_round_trip.
  exact rotated_placement_inverse.
Defined.

(** ** The helix-cylinder intersector *)

Section intersector_facts.
Variable sqrt : scalar -> scalar.
Variables (h : helix) (m : mask) (trf : transform3).
Variable mask_tolerance : scalar.

Lemma newton_step_some (st st' : newton_state) :
  newton_step h m trf st = Some st' ->
  eqb (denom_at h trf (s st)) (lit 0) = false
  /\ st' = mk_state
             (s st - (dot (crp_at h trf (s st)) (crp_at h trf (s st))
                      - r m * r m) / denom_at h trf (s st))%Qc
             (s st) (S (n_tries st)).
Proof.
  unfold newton_step.
  destruct (eqb (denom_at h trf (s st)) (lit 0)); [discriminate|].
  intros H; injection H as <-. split; reflexivity.
Qed.

Lemma newton_step_none (st : newton_state) :
  eqb (denom_at h trf (s st)) (lit 0) = true ->
  newton_step h m trf st = None.
Proof. unfold newton_step. intros ->. reflexivity. Qed.

Lemma loop_cond_tries (st : newton_state) :
  loop_cond st = true -> (n_tries st < max_n_tries)%nat.
Proof.
  unfold loop_cond. intros H.
  apply andb_true_iff in H as [_ H]. now apply Nat.ltb_lt in H.
Qed.

(** The loop never runs out of fuel when given [max_n_tries] passes. *)
Lemma newton_loop_total (fuel : nat) :
  forall st, (max_n_tries <= n_tries st + fuel)%nat ->
             exists e, newton_loop h m trf fuel st = Some e.
Proof.
  induction fuel as [|fuel IH]; intros st Hfuel; cbn [newton_loop].
  - destruct (loop_cond st) eqn:Hc; [|eauto].
    apply loop_cond_tries in Hc. lia.
  - destruct (loop_cond st) eqn:Hc; [|eauto].
    destruct (newton_step h m trf st) as [st'|] eqn:Hs; [|eauto].
    apply IH. apply newton_step_some in Hs as [_ ->]. cbn. lia.
Qed.

(** Passes already made can be skipped. *)
Lemma newton_loop_reaches (a b : newton_state) :
  loop_reaches h m trf a b ->
  forall fuel, (max_n_tries <= n_tries a + fuel)%nat ->
  exists fuel', (max_n_tries <= n_tries b + fuel')%nat
                /\ newton_loop h m trf fuel a = newton_loop h m trf fuel' b.
Proof.
  induction 1 as [|b c Hab IH Hc Hs]; intros fuel Hfuel.
  - exists fuel. split; [assumption | reflexivity].
  - destruct (IH fuel Hfuel) as (fuel' & Hf' & ->).
    pose proof (loop_cond_tries _ Hc) as Hlt.
    destruct fuel' as [|fuel']; [lia|].
    exists fuel'. split.
    + apply newton_step_some in Hs as [_ ->]. cbn. lia.
    + cbn [newton_loop]. rewrite Hc, Hs. reflexivity.
Qed.

Lemma newton_iterate_reaches (k : nat) :
  forall a b, newton_iterate h m trf k a = Some b ->
              loop_reaches h m trf a b.
Proof.
  induction k as [|k IH]; intros a b; cbn [newton_iterate].
  - intros H; injection H as <-. constructor.
  - destruct (loop_cond a) eqn:Hc; [|discriminate].
    destruct (newton_step h m trf a) as [a'|] eqn:Hs; [|discriminate].
    intros H. apply IH in H.
    clear IH. induction H as [|x y Hxy IHxy Hcx Hsx].
    + econstructor; [constructor | exact Hc | exact Hs].
    + econstructor; [exact IHxy | exact Hcx | exact Hsx].
Qed.

(** The output is one of two: the untouched array, or the array with
    slot 0 built from the last [s]. *)
Lemma intersector_cases :
  helix_cylinder_intersector sqrt h m trf mask_tolerance
  = Some (default_intersection, default_intersection)
  \/ exists st,
      newton_loop h m trf max_n_tries (initial_state sqrt h m)
      = Some (loop_done st)
      /\ n_tries st <> max_n_tries
      /\ helix_cylinder_intersector sqrt h m trf mask_tolerance
         = Some (build_intersection sqrt h m trf mask_tolerance (s st),
                 default_intersection).
Proof.
  unfold helix_cylinder_intersector.
  destruct (newton_loop_total max_n_tries (initial_state sqrt h m))
    as [e He]; [cbn; lia|].
  rewrite He. cbn [option_map]. destruct e as [|st]; cbn [finish].
  - left; reflexivity.
  - destruct (Nat.eqb_spec (n_tries st) max_n_tries) as [E|E].
    + left; reflexivity.
    + right. exists st. repeat split; assumption.
Qed.

(** A zero denominator at the head of any pass ends the call with the
    untouched array. *)
Lemma zero_denominator_output (st : newton_state) :
  loop_reaches h m trf (initial_state sqrt h m) st ->
  loop_cond st = true ->
  eqb (denom_at h trf (s st)) (lit 0) = true ->
  helix_cylinder_intersector sqrt h m trf mask_tolerance
  = Some (default_intersection, default_intersection).
Proof.
  intros Hr Hc Hd.
  destruct (newton_loop_reaches _ _ Hr max_n_tries)
    as (fuel' & Hf & E); [cbn; lia|].
  unfold helix_cylinder_intersector. rewrite E.
  pose proof (loop_cond_tries _ Hc).
  destruct fuel' as [|fuel']; [lia|].
  cbn [newton_loop]. rewrite Hc, (newton_step_none _ Hd). reflexivity.
Qed.

End intersector_facts.

Lemma newton_iterate_tries (h : helix) (m : mask) (trf : transform3)
      (k : nat) :
  forall a b, newton_iterate h m trf k a = Some b ->
              n_tries b = (n_tries a + k)%nat.
Proof.
  induction k as [|k IH]; intros a b; cbn [newton_iterate].
  - intros H; injection H as <-. lia.
  - destruct (loop_cond a); [|discriminate].
    destruct (newton_step h m trf a) as [a'|] eqn:Hs; [|discriminate].
    intros H. apply IH in H. apply newton_step_some in Hs as [_ ->].
    cbn [n_tries] in H. lia.
Qed.

(** Whatever the inputs, a call whose loop makes its 100th pass returns
    the untouched array: the test after the loop does not look at whether
    that pass brought the step within the tolerance. *)
Lemma hundredth_pass_gives_nothing
      (sqrt : scalar -> scalar) (h : helix) (m : mask) (trf : transform3)
      (mask_tolerance : scalar) (st : newton_state) :
  newton_iterate h m trf max_n_tries (initial_state sqrt h m) = Some st ->
  helix_cylinder_intersector sqrt h m trf mask_tolerance
  = Some (default_intersection, default_intersection).
Proof.
  intros Hit.
  pose proof (newton_iterate_tries _ _ _ _ _ _ Hit) as Hn.
  cbn [initial_state n_tries] in Hn.
  apply newton_iterate_reaches in Hit.
  destruct (newton_loop_reaches _ _ _ _ _ Hit max_n_tries)
    as (fuel' & _ & E); [cbn; lia|].
  unfold helix_cylinder_intersector. rewrite E.
  assert (Hc : loop_cond st = false).
  { unfold loop_cond. rewrite Hn. cbn. apply andb_false_r. }
  destruct fuel'; cbn [newton_loop]; rewrite Hc; cbn [option_map finish];
    rewrite Hn; reflexivity.
Qed.

(** C3. Whenever the intersector populates slot 0, the path of the record
    is the Euclidean norm of its global point; it is not the path length
    along the trajectory: on the line that starts at [(1, 0, 0)] and runs
    along the x axis, the record for the cylinder of radius 3 has a path
    different from the converged [s]. *)
Theorem path_is_norm_of_global_point :
  (forall (sqrt : scalar -> scalar) (h : helix) (m : mask) (trf : transform3)
          (mask_tolerance : scalar) (out : output_type) (p : point3),
      helix_cylinder_intersector sqrt h m trf mask_tolerance = Some out ->
      p3 (fst out) = Some p ->
      path (fst out) = Some (norm sqrt p))
  /\ (exists st out,
         newton_loop crossing_line (cylinder_mask (lit 3) 7)
                     identity_transform max_n_tries
                     (initial_state sqrt_q crossing_line
                                    (cylinder_mask (lit 3) 7))
         = Some (loop_done st)
         /\ helix_cylinder_intersector
              sqrt_q crossing_line (cylinder_mask (lit 3) 7)
              identity_transform tol = Some out
         /\ p3 (fst out) = Some (pos crossing_line (s st))
         /\ path (fst out) <> Some (s st)).
Proof.
  split.
  - intros sqrt h m trf mt out p Hout Hp.
    destruct (intersector_cases sqrt h m trf mt) as [E | (st & _ & _ & E)];
      rewrite E in Hout; injection Hout as <-; cbn in Hp |- *.
    + discriminate.
    + injection Hp as <-. reflexivity.
  - eexists. eexists.
    split; [vm_compute; reflexivity|].
    split; [vm_compute; reflexivity|].
    split; [vm_compute; reflexivity|].
    intros H. apply (f_equal (option_map this)) in H.
    vm_compute in H. discriminate.
Qed.

Lemma path_is_norm_of_global_point_witness :
  exists out p,
    helix_cylinder_intersector sqrt_q crossing_line (cylinder_mask (lit 3) 7)
                               identity_transform tol = Some out
    /\ p3 (fst out) = Some p
    /\ path (fst out) = Some (norm sqrt_q p).
Proof.
  eexists. eexists.
  split; [vm_compute; reflexivity|].
  split; [reflexivity|].
  apply (proj1 path_is_norm_of_global_point
               sqrt_q crossing_line (cylinder_mask (lit 3) 7)
               identity_transform tol);
    [vm_compute; reflexivity | reflexivity].
Defined.

(** C7. Every call of the intersector returns, and slot 1 of the array it
    returns is the default-constructed intersection, whatever the inputs and
    whether or not slot 0 was populated. *)
Theorem slot_1_is_never_written
        (sqrt : scalar -> scalar) (h : helix) (m : mask) (trf : transform3)
        (mask_tolerance : scalar) :
  exists ret0,
    helix_cylinder_intersector sqrt h m trf mask_tolerance
    = Some (ret0, default_intersection).
Proof.
  destruct (intersector_cases sqrt h m trf mask_tolerance)
    as [E | (st & _ & _ & E)]; rewrite E; eauto.
Qed.

(** ** The consistency checker *)

Import detector_model consistency_checker.

Lemma list_empty_false {A} (l : list A) : list_empty l = false <-> l <> [].
Proof. destruct l; cbn; split; congruence. Qed.

Lemma list_empty_true {A} (l : list A) : list_empty l = true <-> l = [].
Proof. destruct l; cbn; split; congruence. Qed.

Lemma find_portals_spec (det : detector) :
  find_portals det = true
  <-> exists sf, In sf (portals det) /\ is_portal sf = true.
Proof.
  unfold find_portals. destruct (portals det) as [|sf0 rest] eqn:E.
  - cbn. split; [discriminate | intros (sf & [] & _)].
  - cbn [list_empty]. apply existsb_exists.
Qed.

(** C8. For every detector whose volume collection is empty the checker
    throws the fault with the no-volumes diagnostic; nothing has been
    written or checked before, whatever the self-checks of volumes and
    surfaces would answer. *)
Theorem no_volumes_fault
        (surface_self_check : detector -> surface_desc -> bool * diag)
        (volume_self_check : detector -> volume_desc -> bool * diag)
        (det : detector) (verbose : bool) :
  volumes det = [] ->
  check_empty det verbose = throws no_volumes
  /\ check_consistency surface_self_check volume_self_check det verbose
     = ([], throws no_volumes).
Proof.
  intros Hv. unfold check_consistency, check_empty. rewrite Hv. cbn.
  split; reflexivity.
Qed.

Lemma no_volumes_fault_witness :
  check_empty examples.no_volume_detector true = throws no_volumes
  /\ check_consistency examples.plain_surface_self_check
                       examples.plain_volume_self_check
                       examples.no_volume_detector true
     = ([], throws no_volumes).
Proof.
  apply (no_volumes_fault examples.plain_surface_self_check
                          examples.plain_volume_self_check
                          examples.no_volume_detector true).
  reflexivity.
Defined.

(** C9. For every detector that passes the five fatal presence checks, an
    entirely empty material store makes [check_empty] return normally with
    the no-material warning as its first line, and [check_consistency] goes
    on to the volume and surface passes; on the one-volume detector without
    material it returns true. *)
Theorem empty_material_store_only_warns :
  (forall (surface_self_check : detector -> surface_desc -> bool * diag)
          (volume_self_check : detector -> volume_desc -> bool * diag)
          (det : detector) (verbose : bool),
      volumes det <> [] ->
      surfaces det <> [] ->
      transform_store det <> [] ->
      all_empty list_empty (mask_store det) = false ->
      find_portals det = true ->
      all_empty material_coll_empty (material_store det) = true ->
      exists rest,
        check_empty det verbose = ok (no_material_warning :: rest)
        /\ check_consistency surface_self_check volume_self_check det verbose
           = (no_material_warning :: rest,
              bind (check_volumes surface_self_check volume_self_check
                                  det 0%N (volumes det) [])
                   (fun err_stream =>
                      bind (check_surfaces surface_self_check det 0%N
                                           (surfaces det) err_stream)
                           (fun _ => ok true))))
  /\ (all_empty material_coll_empty (material_store examples.toy_detector)
      = true
      /\ check_consistency examples.plain_surface_self_check
                           examples.plain_volume_self_check
                           examples.toy_detector false
         = ([no_material_warning], ok true)).
Proof.
  split.
  - intros ssc vsc det verbose Hv Hs Ht Hm Hp Hmat.
    apply list_empty_false in Hv, Hs, Ht.
    unfold check_consistency, check_empty, check_empty_warnings.
    rewrite Hv, Hs, Ht, Hm, Hp, Hmat. cbn [negb app].
    eexists. split; reflexivity.
  - split; reflexivity.
Qed.

Lemma empty_material_store_only_warns_witness :
  exists rest,
    check_empty examples.toy_detector true = ok (no_material_warning :: rest)
    /\ check_consistency examples.plain_surface_self_check
                         examples.plain_volume_self_check
                         examples.toy_detector true
       = (no_material_warning :: rest,
          bind (check_volumes examples.plain_surface_self_check
                              examples.plain_volume_self_check
                              examples.toy_detector 0%N
                              (volumes examples.toy_detector) [])
               (fun err_stream =>
                  bind (check_surfaces examples.plain_surface_self_check
                                       examples.toy_detector 0%N
                                       (surfaces examples.toy_detector)
                                       err_stream)
                       (fun _ => ok true))).
Proof.
  apply (proj1 empty_material_store_only_warns
               examples.plain_surface_self_check
               examples.plain_volume_self_check
               examples.toy_detector true);
    try discriminate; reflexivity.
Defined.

(** C5 as stated fails by the order of the presence checks: the detector
    with one volume, one sensitive surface and no transform has no surface
    flagged as a portal anywhere in its surface collection, and the presence
    step throws the no-transforms fault, not the no-portals fault. *)
Lemma no_portal_but_another_fault :
  (forall sf, In sf (surfaces examples.no_transform_detector) ->
              is_portal sf = false)
  /\ check_empty examples.no_transform_detector false = throws no_transforms
  /\ check_empty examples.no_transform_detector false <> throws no_portals.
Proof.
  split; [|split].
  - intros sf [<-|[]]. reflexivity.
  - reflexivity.
  - discriminate.
Qed.

(** C5, amended.  The portal check passes exactly when some surface of the
    surface collection is flagged as a portal.  The presence step throws the
    no-portals fault exactly when the four presence checks before it
    (volumes, surfaces, transforms, masks) pass and no surface of the
    surface collection is flagged as a portal; and for every detector with
    a portal in its surface collection the no-portals fault is not thrown,
    and the step returns without a fault when the other presence checks
    pass. *)
Theorem no_portals_fault_iff (det : detector) (verbose : bool) :
  (find_portals det = true
   <-> exists sf, In sf (surfaces det) /\ is_portal sf = true)
  /\ (check_empty det verbose = throws no_portals
      <-> volumes det <> [] /\ surfaces det <> []
          /\ transform_store det <> []
          /\ all_empty list_empty (mask_store det) = false
          /\ ~ exists sf, In sf (surfaces det) /\ is_portal sf = true)
  /\ ((exists sf, In sf (surfaces det) /\ is_portal sf = true) ->
      check_empty det verbose <> throws no_portals
      /\ (volumes det <> [] ->
          transform_store det <> [] ->
          all_empty list_empty (mask_store det) = false ->
          check_empty det verbose = ok (check_empty_warnings det verbose))).
Proof.
  pose proof (find_portals_spec det) as Hfp.
  split; [exact Hfp|]. split.
  - unfold check_empty. split.
    + destruct (list_empty (volumes det)) eqn:Hv; [discriminate|].
      destruct (list_empty (surfaces det)) eqn:Hs; [discriminate|].
      destruct (list_empty (transform_store det)) eqn:Ht; [discriminate|].
      destruct (all_empty list_empty (mask_store det)) eqn:Hm; [discriminate|].
      destruct (find_portals det) eqn:Hp; [discriminate|].
      intros _. apply list_empty_false in Hv, Hs, Ht.
      repeat split; try assumption.
      intros H. apply Hfp in H. discriminate.
    + intros (Hv & Hs & Ht & Hm & Hp).
      apply list_empty_false in Hv, Hs, Ht. rewrite Hv, Hs, Ht, Hm.
      destruct (find_portals det) eqn:E; [|reflexivity].
      exfalso. apply Hp, Hfp. reflexivity.
  - intros Hex.
    assert (Hs : surfaces det <> []).
    { destruct Hex as (sf & Hin & _). intros E. rewrite E in Hin.
      destruct Hin. }
    apply Hfp in Hex. unfold check_empty. split.
    + rewrite Hex. cbn [negb].
      destruct (list_empty (volumes det)); [discriminate|].
      destruct (list_empty (surfaces det)); [discriminate|].
      destruct (list_empty (transform_store det)); [discriminate|].
      destruct (all_empty list_empty (mask_store det)); discriminate.
    + intros Hv Ht Hm. apply list_empty_false in Hv, Hs, Ht.
      rewrite Hv, Hs, Ht, Hm, Hex. reflexivity.
Qed.

Lemma no_portals_fault_iff_witness :
  check_empty examples.portal_last_detector false <> throws no_portals
  /\ (volumes examples.portal_last_detector <> [] ->
      transform_store examples.portal_last_detector <> [] ->
      all_empty list_empty (mask_store examples.portal_last_detector) = false ->
      check_empty examples.portal_last_detector false
      = ok (check_empty_warnings examples.portal_last_detector false)).
Proof.
  apply (proj2 (proj2 (no_portals_fault_iff examples.portal_last_detector
                                            false))).
  exists examples.portal0. split; [right; left|]; reflexivity.
Defined.

Lemma surface_eqb_eq (a b : surface_desc) : surface_eqb a b = true <-> a = b.
Proof.
  unfold surface_eqb. destruct (surface_desc_eq_dec a b); split;
    congruence.
Qed.

Section checker_facts.
Variable surface_self_check : detector -> surface_desc -> bool * diag.
Variable volume_self_check : detector -> volume_desc -> bool * diag.

(** *** What a successful volume pass establishes *)

Lemma surface_checker_ok (sf : surface_desc) (det : detector)
      (idx : dindex) (u : unit) :
  surface_checker surface_self_check sf det idx = ok u ->
  sf_volume sf = idx.
Proof.
  unfold surface_checker.
  destruct (surface_self_check det sf) as [[|] es]; cbn; [|discriminate].
  destruct (N.eqb_spec (sf_volume sf) idx); cbn; [auto | discriminate].
Qed.

Lemma visit_each_checker_ok (det : detector) (idx : dindex)
      (sfs : list surface_desc) (u : unit) :
  visit_each (fun sf _ => surface_checker surface_self_check sf det idx)
             sfs tt = ok u ->
  forall ref, In ref sfs -> sf_volume ref = idx.
Proof.
  induction sfs as [|sf rest IH]; cbn [visit_each]; intros H ref Hin.
  - destruct Hin.
  - destruct (surface_checker surface_self_check sf det idx) as [[]| |]
      eqn:Hc; cbn [bind] in H; try discriminate.
    destruct Hin as [<-|Hin].
    + eapply surface_checker_ok; eassumption.
    + now apply IH.
Qed.

Lemma visit_links_checker_ok (det : detector) (idx : dindex)
      (links : list typed_index) (u : unit) :
  visit_links (fun sf _ => surface_checker surface_self_check sf det idx)
              det links tt = ok u ->
  forall l, In l links -> is_invalid_value (index l) = false ->
  forall sfs, accel_lookup det l = ok sfs ->
  forall ref, In ref sfs -> sf_volume ref = idx.
Proof.
  induction links as [|l0 rest IH]; cbn [visit_links];
    intros H l Hin Hl sfs Hsfs ref Href.
  - destruct Hin.
  - destruct (is_invalid_value (index l0)) eqn:Hl0.
    + destruct Hin as [<-|Hin]; [congruence|]. eapply IH; eassumption.
    + destruct (accel_lookup det l0) as [sfs0| |] eqn:Hlk;
        cbn [bind] in H; try discriminate.
      destruct (visit_each _ sfs0 tt) as [[]| |] eqn:Hv;
        cbn [bind] in H; try discriminate.
      destruct Hin as [<-|Hin].
      * rewrite Hlk in Hsfs. injection Hsfs as <-.
        eapply visit_each_checker_ok; eassumption.
      * eapply IH; eassumption.
Qed.

Lemma check_volume_ok (det : detector) (idx : dindex) (vol : volume_desc)
      (es es' : diag) :
  check_volume surface_self_check volume_self_check det idx vol es = ok es' ->
  vol_index vol = idx
  /\ forall l, In l (vol_accel_links vol) -> is_invalid_value (index l) = false ->
     forall sfs, accel_lookup det l = ok sfs ->
     forall ref, In ref sfs -> sf_volume ref = vol_index vol.
Proof.
  unfold check_volume, visit_surfaces.
  destruct (volume_self_check det vol) as [[|] out]; cbn [negb];
    [|discriminate].
  destruct (N.eqb_spec (vol_index vol) idx) as [E|E]; cbn [negb];
    [|discriminate].
  destruct (visit_links _ det (vol_accel_links vol) tt) as [[]| |] eqn:Hv;
    cbn [bind]; try discriminate.
  intros _. split; [exact E|].
  eapply visit_links_checker_ok; eassumption.
Qed.

Lemma check_volumes_ok (det : detector) (vols : list volume_desc) :
  forall (i : dindex) (es es' : diag),
    check_volumes surface_self_check volume_self_check det i vols es
    = ok es' ->
    forall k vol,
      nth_error vols k = Some vol ->
      vol_index vol = (i + N.of_nat k)%N
      /\ forall l, In l (vol_accel_links vol) -> is_invalid_value (index l) = false ->
         forall sfs, accel_lookup det l = ok sfs ->
         forall ref, In ref sfs -> sf_volume ref = vol_index vol.
Proof.
  induction vols as [|v rest IH]; intros i es es' H k vol Hk.
  - destruct k; discriminate.
  - cbn [check_volumes] in H.
    destruct (check_volume _ _ det i v es) as [es1| |] eqn:Hv;
      cbn [bind] in H; try discriminate.
    destruct k as [|k]; cbn [nth_error] in Hk.
    + injection Hk as <-. apply check_volume_ok in Hv as [E Hrefs].
      split; [rewrite E; cbn; lia | exact Hrefs].
    + destruct (IH _ _ _ H k vol Hk) as [E Hrefs].
      split; [rewrite E; lia | exact Hrefs].
Qed.

(** *** The search for one surface in the structures of its volume *)

Lemma visit_each_finder_false (sf : surface_desc)
      (sfs : list surface_desc) :
  (forall ref, In ref sfs -> sf_volume ref = sf_volume sf) ->
  ~ In sf sfs ->
  visit_each (surface_finder sf) sfs false = ok false.
Proof.
  induction sfs as [|ref rest IH]; intros Hvol Hnot; cbn [visit_each].
  - reflexivity.
  - unfold surface_finder at 1.
    rewrite (Hvol ref (or_introl eq_refl)), N.eqb_refl. cbn [negb].
    destruct (surface_eqb ref sf) eqn:E.
    + apply surface_eqb_eq in E. exfalso. apply Hnot. now left.
    + cbn [bind]. apply IH.
      * intros ref' Hin. apply Hvol. now right.
      * intros Hin. apply Hnot. now right.
Qed.

Lemma visit_links_finder_false (det : detector) (sf : surface_desc)
      (links : list typed_index) :
  (forall l, In l links -> is_invalid_value (index l) = false ->
             exists sfs, accel_lookup det l = ok sfs
                         /\ ~ In sf sfs
                         /\ forall ref, In ref sfs ->
                                        sf_volume ref = sf_volume sf) ->
  visit_links (surface_finder sf) det links false = ok false.
Proof.
  induction links as [|l0 rest IH]; intros H; cbn [visit_links].
  - reflexivity.
  - destruct (is_invalid_value (index l0)) eqn:Hl0.
    + apply IH. intros l Hin. apply H. now right.
    + destruct (H l0 (or_introl eq_refl) Hl0) as (sfs & -> & Hnot & Hvol).
      cbn [bind]. rewrite visit_each_finder_false by assumption.
      cbn [bind]. apply IH. intros l Hin. apply H. now right.
Qed.

Lemma visit_each_finder_true (sf : surface_desc)
      (sfs : list surface_desc) :
  forall b, visit_each (surface_finder sf) sfs b = ok true ->
            b = true \/ In sf sfs.
Proof.
  induction sfs as [|ref rest IH]; intros b; cbn [visit_each].
  - intros H; injection H as ->. now left.
  - unfold surface_finder at 1.
    destruct (negb (sf_volume ref =? sf_volume sf)%N); [discriminate|].
    destruct (surface_eqb ref sf) eqn:E; cbn [bind]; intros H.
    + apply surface_eqb_eq in E. right. now left.
    + destruct (IH _ H) as [->|Hin]; [now left | right; now right].
Qed.

Lemma visit_links_finder_true (det : detector) (sf : surface_desc)
      (links : list typed_index) :
  forall b, visit_links (surface_finder sf) det links b = ok true ->
            b = true
            \/ exists l sfs, In l links /\ is_invalid_value (index l) = false
                             /\ accel_lookup det l = ok sfs /\ In sf sfs.
Proof.
  induction links as [|l0 rest IH]; intros b; cbn [visit_links].
  - intros H; injection H as ->. now left.
  - destruct (is_invalid_value (index l0)) eqn:Hl0.
    + intros H. destruct (IH _ H) as [->|(l & sfs & Hin & Hr)];
        [now left|].
      right. exists l, sfs. split; [now right | exact Hr].
    + destruct (accel_lookup det l0) as [sfs0| |] eqn:Hlk;
        cbn [bind]; try discriminate.
      destruct (visit_each (surface_finder sf) sfs0 b) as [b1| |] eqn:Hv;
        cbn [bind]; try discriminate.
      intros H. destruct (IH _ H) as [->|(l & sfs & Hin & Hr)].
      * destruct (visit_each_finder_true _ _ _ Hv) as [->|Hin];
          [now left|].
        right. exists l0, sfs0. repeat split; try assumption. now left.
      * right. exists l, sfs. split; [now right | exact Hr].
Qed.

Lemma check_surfaces_app (det : detector) (l1 l2 : list surface_desc) :
  forall (i : dindex) (es : diag),
    check_surfaces surface_self_check det i (l1 ++ l2) es
    = bind (check_surfaces surface_self_check det i l1 es)
           (check_surfaces surface_self_check det
                           (i + N.of_nat (List.length l1))%N l2).
Proof.
  induction l1 as [|sf rest IH]; intros i es.
  - cbn. now rewrite N.add_0_r.
  - cbn [app check_surfaces].
    destruct (check_surface surface_self_check det i sf es) as [es1| |];
      cbn [bind]; try reflexivity.
    rewrite IH. do 2 f_equal. cbn [List.length]. lia.
Qed.

(** A surface that passes its step of the surface pass is held by one of
    the structures of its volume. *)
Lemma check_surface_ok (det : detector) (idx : dindex) (sf : surface_desc)
      (es es' : diag) :
  check_surface surface_self_check det idx sf es = ok es' ->
  exists vol l sfs,
    at_index (volumes det) (sf_volume sf) = ok vol
    /\ In l (vol_accel_links vol) /\ is_invalid_value (index l) = false
    /\ accel_lookup det l = ok sfs /\ In sf sfs.
Proof.
  unfold check_surface, visit_surfaces.
  destruct (surface_self_check det sf) as [[|] out]; cbn [negb];
    [|discriminate].
  destruct (negb (sf_index sf =? idx)%N); [discriminate|].
  destruct (at_index (volumes det) (sf_volume sf)) as [vol| |] eqn:Hvol;
    cbn [bind]; try discriminate.
  destruct (visit_links (surface_finder sf) det (vol_accel_links vol) false)
    as [[|]| |] eqn:Hv; cbn [bind negb]; try discriminate.
  intros _.
  destruct (visit_links_finder_true _ _ _ _ Hv)
    as [?|(l & sfs & Hin & Hl & Hlk & Hsf)]; [discriminate|].
  exists vol, l, sfs. repeat split; assumption.
Qed.

End checker_facts.

(** C6 as stated fails on the detector with two surfaces outside the
    acceleration structures of their volume: [sensitive2] is in the surface
    lookup and in no structure of volume 0, and the fault that is thrown
    does not mention it. *)
Lemma second_orphan_is_not_identified :
  In examples.sensitive2 (surfaces examples.two_orphans_detector)
  /\ (forall vol l sfs,
         at_index (volumes examples.two_orphans_detector)
                  (sf_volume examples.sensitive2) = ok vol ->
         In l (vol_accel_links vol) ->
         accel_lookup examples.two_orphans_detector l = ok sfs ->
         ~ In examples.sensitive2 sfs)
  /\ exists e,
      snd (check_consistency examples.plain_surface_self_check
                             examples.plain_volume_self_check
                             examples.two_orphans_detector false)
      = throws e
      /\ ~ In (show_surface examples.sensitive2) (what e).
Proof.
  split; [right; right; left; reflexivity|]. split.
  - intros vol l sfs Hvol Hl Hsfs.
    injection Hvol as <-. destruct Hl as [<-|[]].
    injection Hsfs as <-. intros [H|[]]. discriminate.
  - eexists. split; [reflexivity|]. cbn.
    intros [H|[H|[H|[H|[]]]]]; discriminate.
Qed.

(** C6, amended.  If a surface of the surface lookup is in none of the
    acceleration structures of its owning volume, [check_consistency] never
    returns: it ends in a fault.  When every check sequenced before the
    membership check of that surface passes (the presence checks, the
    volume pass, the surfaces before it, its own self-check and index
    check), the fault is the not-registered diagnostic, which ends with
    that surface. *)
Theorem orphan_surface_fault
        (surface_self_check : detector -> surface_desc -> bool * diag)
        (volume_self_check : detector -> volume_desc -> bool * diag)
        (det : detector) (verbose : bool)
        (pre post : list surface_desc) (sf : surface_desc)
        (vol : volume_desc) :
  surfaces det = pre ++ sf :: post ->
  at_index (volumes det) (sf_volume sf) = ok vol ->
  (forall l, In l (vol_accel_links vol) ->
             is_invalid_value (index l) = false ->
             exists sfs, accel_lookup det l = ok sfs /\ ~ In sf sfs) ->
  (forall b,
      snd (check_consistency surface_self_check volume_self_check det verbose)
      <> ok b)
  /\ (forall cout es es',
         check_empty det verbose = ok cout ->
         check_volumes surface_self_check volume_self_check
                       det 0%N (volumes det) [] = ok es ->
         check_surfaces surface_self_check det 0%N pre es = ok es' ->
         fst (surface_self_check det sf) = true ->
         sf_index sf = N.of_nat (List.length pre) ->
         check_consistency surface_self_check volume_self_check det verbose
         = (cout,
            throws (invalid_argument
                      ((es' ++ snd (surface_self_check det sf))
                       ++ [text not_registered_text; newline;
                           text "Surface: "; show_surface sf])))).
Proof.
  intros Hsfs Hvol Horphan. split.
  - intros b. unfold check_consistency.
    destruct (check_empty det verbose) as [cout| |]; cbn [snd];
      try discriminate.
    destruct (check_volumes _ _ det 0%N (volumes det) []) as [es| |];
      cbn [bind]; try discriminate.
    rewrite Hsfs, check_surfaces_app.
    destruct (check_surfaces _ det 0%N pre es) as [es'| |];
      cbn [bind]; try discriminate.
    cbn [check_surfaces].
    destruct (check_surface _ det _ sf es') as [es''| |] eqn:Hc;
      cbn [bind]; try discriminate.
    exfalso. apply check_surface_ok in Hc
      as (vol' & l & sfs & Hvol' & Hin & Hl & Hlk & Hsf).
    rewrite Hvol in Hvol'. injection Hvol' as <-.
    destruct (Horphan l Hin Hl) as (sfs' & Hlk' & Hnot).
    rewrite Hlk in Hlk'. injection Hlk' as <-. contradiction.
  - intros cout es es' Hempty Hvols Hpre Hself Hidx.
    unfold check_consistency. rewrite Hempty, Hvols. cbn [bind].
    rewrite Hsfs, check_surfaces_app, Hpre. cbn [bind check_surfaces].
    unfold check_surface, visit_surfaces.
    destruct (surface_self_check det sf) as [passed out].
    cbn [fst snd] in *. subst passed. cbn [negb].
    rewrite Hidx, N.add_0_l, N.eqb_refl. cbn [negb].
    rewrite <- Hidx, Hvol. cbn [bind].
    rewrite visit_links_finder_false; [reflexivity|].
    intros l Hin Hl. destruct (Horphan l Hin Hl) as (sfs & Hlk & Hnot).
    exists sfs. repeat split; try assumption.
    intros ref Href.
    unfold at_index in Hvol.
    destruct (nth_error (volumes det) (N.to_nat (sf_volume sf)))
      as [vol'|] eqn:Hnth; [|discriminate].
    injection Hvol as ->.
    destruct (check_volumes_ok _ _ _ _ _ _ _ Hvols _ _ Hnth) as [Evol Hrefs].
    rewrite (Hrefs l Hin Hl sfs Hlk ref Href), Evol. lia.
Qed.

Lemma orphan_surface_fault_witness :
  check_consistency examples.plain_surface_self_check
                    examples.plain_volume_self_check
                    examples.orphan_detector false
  = ([no_material_warning],
     throws (invalid_argument
               [text not_registered_text; newline; text "Surface: ";
                show_surface examples.sensitive1])).
Proof.
  refine (proj2 (orphan_surface_fault
                   examples.plain_surface_self_check
                   examples.plain_volume_self_check
                   examples.orphan_detector false
                   [examples.portal0] [] examples.sensitive1
                   (mk_volume 0%N None [mk_link 0%N 0%N])
                   eq_refl eq_refl _)
                [no_material_warning] [] []
                eq_refl eq_refl eq_refl eq_refl eq_refl).
  intros l [<-|[]] _. exists [examples.portal0].
  split; [reflexivity|]. intros [H|[]]; discriminate.
Defined.

(** ** Io type ids *)

Import type_info.

Lemma same_type_eq (a b : type_name) : same_type a b = true <-> a = b.
Proof.
  unfold same_type. destruct (type_name_eq_dec a b); split; congruence.
Qed.

Lemma position_some (t : type_name) (reg : type_registry) :
  forall i, position t reg = Some i -> nth_error reg i = Some t.
Proof.
  induction reg as [|first_t remaining IH]; intros i; cbn [position].
  - discriminate.
  - destruct (same_type first_t t) eqn:E.
    + intros H; injection H as <-. apply same_type_eq in E. now subst.
    + destruct (position t remaining) as [j|]; [|discriminate].
      intros H; injection H as <-. cbn. now apply IH.
Qed.

Lemma registry_is_defined_In (t : type_name) (reg : type_registry) :
  registry_is_defined reg t = true <-> In t reg.
Proof.
  unfold registry_is_defined. induction reg as [|first_t remaining IH];
    cbn [position In].
  - split; [discriminate | contradiction].
  - destruct (same_type first_t t) eqn:E.
    + apply same_type_eq in E. split; [now left | reflexivity].
    + destruct (position t remaining) as [j|]; cbn [option_map].
      * split; [intros _; right; now apply IH | reflexivity].
      * split; [discriminate|]. intros [H|H].
        -- apply same_type_eq in H. congruence.
        -- now apply IH.
Qed.

Section get_id_facts.
Variable ID : Type.
Variable of_index : nat -> ID.
Variable unknown : ID.

(** The shape of both lookups: the registry id if the type is registered,
    and [unknown] otherwise. *)
Lemma lookup_cases (reg : type_registry) (t : type_name) :
  (In t reg ->
   exists i, nth_error reg i = Some t
             /\ registry_get_id of_index reg t = of_index i
             /\ (if registry_is_defined reg t
                 then registry_get_id of_index reg t else unknown)
                = registry_get_id of_index reg t)
  /\ (~ In t reg ->
      (if registry_is_defined reg t
       then registry_get_id of_index reg t else unknown) = unknown).
Proof.
  split; intros H.
  - pose proof (proj2 (registry_is_defined_In t reg) H) as Hd.
    rewrite Hd. unfold registry_is_defined, registry_get_id in *.
    destruct (position t reg) as [i|] eqn:Hp; [|discriminate].
    exists i. split; [now apply position_some | split; reflexivity].
  - destruct (registry_is_defined reg t) eqn:Hd; [|reflexivity].
    apply registry_is_defined_In in Hd. contradiction.
Qed.

End get_id_facts.

(** C10. [get_id] is a total function of its input type.  For every shape
    type that is registered in the shape registry it returns the registry
    id of that type, the id of a position at which the registry holds the
    type; for every other shape type it returns [unknown].  The same holds
    of the grid lookup and the frame registry, through the local frame of
    the grid. *)
Theorem get_id_registered_or_unknown
        (ID : Type) (of_index : nat -> ID) (unknown : ID) :
  (forall shape_t : type_name,
      (In shape_t shape_registry ->
       exists i, nth_error shape_registry i = Some shape_t
                 /\ registry_get_id of_index shape_registry shape_t
                    = of_index i
                 /\ get_id_shape of_index unknown shape_t
                    = registry_get_id of_index shape_registry shape_t)
      /\ (~ In shape_t shape_registry ->
          get_id_shape of_index unknown shape_t = unknown))
  /\ (forall grid_t : grid_type,
         (In (local_frame_type grid_t) frame_registry ->
          exists i, nth_error frame_registry i = Some (local_frame_type grid_t)
                    /\ registry_get_id of_index frame_registry
                                       (local_frame_type grid_t)
                       = of_index i
                    /\ get_id_grid of_index unknown grid_t
                       = registry_get_id of_index frame_registry
                                         (local_frame_type grid_t))
         /\ (~ In (local_frame_type grid_t) frame_registry ->
             get_id_grid of_index unknown grid_t = unknown)).
Proof.
  split.
  - intros shape_t. apply lookup_cases.
  - intros grid_t. unfold get_id_grid. apply lookup_cases.
Qed.

Lemma get_id_registered_or_unknown_witness :
  (exists i, nth_error shape_registry i = Some cylinder3D
             /\ registry_get_id (fun n => n) shape_registry cylinder3D = i
             /\ get_id_shape (fun n => n) shape_unknown cylinder3D
                = registry_get_id (fun n => n) shape_registry cylinder3D)
  /\ get_id_shape (fun n => n) shape_unknown (single3D 3) = shape_unknown
  /\ get_id_grid (fun n => n) accel_unknown (mk_grid (other_type "line2"))
     = accel_unknown.
Proof.
  pose proof (get_id_registered_or_unknown
                nat (fun n : nat => n) shape_unknown) as [Hshape _].
  pose proof (get_id_registered_or_unknown
                nat (fun n : nat => n) accel_unknown) as [_ Hgrid].
  split; [|split].
  - apply (proj1 (Hshape cylinder3D)). cbn. tauto.
  - apply (proj2 (Hshape (single3D 3))). cbn.
    intros H. repeat (destruct H as [H|H]; [discriminate|]). exact H.
  - apply (proj2 (Hgrid (mk_grid (other_type "line2")))). cbn.
    intros H. repeat (destruct H as [H|H]; [discriminate|]). exact H.
Defined.

(** ** More on the frame projection *)

Import cartesian2_rotation accepted type_info_more material_map_writer.

(** X1. For a transform whose [point_to_global] is the affine map of its
    matrix (columns 0 to 2 applied to the point, column 3 added), the global
    image of a local point is [bound_to_free_rotation] applied to the point,
    displaced by the translation column. *)
Theorem local_to_global_through_bound_to_free
        (trf : transform3) (mask_t : Type) (mask : mask_t)
        (p : point2) (d : vector3) :
  (forall q,
      point_to_global trf q
      = apply_affine (getter_vector3 (trf_matrix trf) 0 0)
                     (getter_vector3 (trf_matrix trf) 0 1)
                     (getter_vector3 (trf_matrix trf) 0 2)
                     (getter_vector3 (trf_matrix trf) 0 3) q) ->
  cartesian2.local_to_global trf mask p d
  = vadd (apply_3x2 (bound_to_free_rotation trf) p)
         (getter_vector3 (trf_matrix trf) 0 3).
Proof.
  intros Hmat. destruct p as [a b].
  unfold cartesian2.local_to_global. rewrite Hmat.
  unfold apply_affine, vadd, vscale, apply_3x2, bound_to_free_rotation,
    block, element, getter_vector3;
    cbn [p3_0 p3_1 p3_2 p2_0 p2_1 Nat.add].
  f_equal; qc_to_q; ring.
Qed.

Lemma local_to_global_through_bound_to_free_witness :
  cartesian2.local_to_global examples.rotated_placement
                             examples.unit_cylinder
                             (mk_point2 (lit 5) (lit 10)) zero3
  = vadd (apply_3x2 (bound_to_free_rotation examples.rotated_placement)
                    (mk_point2 (lit 5) (lit 10)))
         (getter_vector3 (trf_matrix examples.rotated_placement) 0 3).
Proof.
  apply local_to_global_through_bound_to_free.
  intros q. reflexivity.
Defined.

Lemma rotated_placement_inverse_r (q : point3) :
  point_to_global examples.rotated_placement
                  (point_to_local examples.rotated_placement q) = q.
Proof.
  destruct q as [x y z].
  unfold examples.rotated_placement, affine, point_to_local, point_to_global,
    apply_affine, vadd, vscale; cbn [p3_0 p3_1 p3_2].
  f_equal; qc_to_q; ring.
Qed.

(** X2. For a transform whose first two matrix columns are orthonormal,
    [free_to_bound_rotation] times [bound_to_free_rotation] is the 2x2
    identity. *)
Theorem rotation_blocks_compose_to_identity (trf : transform3) :
  let cx := getter_vector3 (trf_matrix trf) 0 0 in
  let cy := getter_vector3 (trf_matrix trf) 0 1 in
  dot cx cx = lit 1 -> dot cy cy = lit 1 -> dot cx cy = lit 0 ->
  let g := product_2x3_3x2 (free_to_bound_rotation trf)
                           (bound_to_free_rotation trf) in
  element g 0 0 = lit 1 /\ element g 0 1 = lit 0
  /\ element g 1 0 = lit 0 /\ element g 1 1 = lit 1.
Proof.
  cbv zeta.
  unfold dot, getter_vector3, product_2x3_3x2, free_to_bound_rotation,
    bound_to_free_rotation, block, transpose, element;
    cbn [p3_0 p3_1 p3_2 Nat.add].
  intros Hx Hy Hxy. repeat split; try assumption.
  rewrite <- Hxy. qc_to_q; ring.
Qed.

Lemma rotation_blocks_compose_to_identity_witness :
  let g := product_2x3_3x2 (free_to_bound_rotation examples.rotated_placement)
                           (bound_to_free_rotation examples.rotated_placement) in
  element g 0 0 = lit 1 /\ element g 0 1 = lit 0
  /\ element g 1 0 = lit 0 /\ element g 1 1 = lit 1.
Proof.
  apply (rotation_blocks_compose_to_identity examples.rotated_placement);
    apply Qc_is_canon; reflexivity.
Defined.

(** X3. For a transform whose two point maps are inverse to each other, a
    global point survives projection into the frame and back exactly when
    the third coordinate of its local image is zero: the frame forgets the
    distance to the plane and nothing else. *)
Theorem cartesian2_reverse_round_trip
        (trf : transform3) (mask_t : Type) (mask : mask_t)
        (g : point3) (d : vector3) :
  (forall q, point_to_local trf (point_to_global trf q) = q) ->
  (forall q, point_to_global trf (point_to_local trf q) = q) ->
  (cartesian2.local_to_global trf mask
     (cartesian2.global_to_local trf g d) d = g
   <-> p3_2 (point_to_local trf g) = lit 0).
Proof.
  intros Hl Hr.
  unfold cartesian2.local_to_global, cartesian2.global_to_local,
    cartesian2.project3; cbn [p2_0 p2_1].
  split.
  - intros H. apply (f_equal (point_to_local trf)) in H.
    rewrite Hl in H. rewrite <- H. reflexivity.
  - intros H. rewrite <- (Hr g) at 3.
    f_equal. destruct (point_to_local trf g) as [x y z].
    cbn in H |- *. now rewrite H.
Qed.

Lemma cartesian2_reverse_round_trip_witness :
  cartesian2.local_to_global examples.rotated_placement examples.unit_cylinder
     (cartesian2.global_to_local examples.rotated_placement
        (mk_point3 (lit 1) (lit 2) (lit 3)) zero3) zero3
  = mk_point3 (lit 1) (lit 2) (lit 3)
  <-> p3_2 (point_to_local examples.rotated_placement
                           (mk_point3 (lit 1) (lit 2) (lit 3))) = lit 0.
Proof.
  apply cartesian2_reverse_round_trip.
  - exact rotated_placement_inverse.
  - exact rotated_placement_inverse_r.
Defined.

(** ** More on the helix-cylinder intersector *)

Section intersector_more.
Variable sqrt : scalar -> scalar.
Variables (h : helix) (m : mask) (trf : transform3).
Variable mask_tolerance : scalar.

Lemma loop_reaches_first_pass (a a' b : newton_state) :
  loop_cond a = true -> newton_step h m trf a = Some a' ->
  loop_reaches h m trf a' b -> loop_reaches h m trf a b.
Proof.
  intros Hc Hs H. induction H as [|x y Hxy IH Hcx Hsx].
  - econstructor; [constructor | exact Hc | exact Hs].
  - econstructor; [exact IH | exact Hcx | exact Hsx].
Qed.

Lemma newton_loop_done (fuel : nat) :
  forall a st, newton_loop h m trf fuel a = Some (loop_done st) ->
               loop_reaches h m trf a st /\ loop_cond st = false.
Proof.
  induction fuel as [|fuel IH]; intros a st; cbn [newton_loop];
    destruct (loop_cond a) eqn:Hc; try discriminate.
  - intros H; injection H as <-. split; [constructor | exact Hc].
  - destruct (newton_step h m trf a) as [a'|] eqn:Hs; [|discriminate].
    intros H. apply IH in H as [Hr Hst]. split; [|exact Hst].
    eapply loop_reaches_first_pass; eassumption.
  - intros H; injection H as <-. split; [constructor | exact Hc].
Qed.

Lemma loop_reaches_tries (a b : newton_state) :
  loop_reaches h m trf a b ->
  (n_tries a <= max_n_tries)%nat ->
  (n_tries a <= n_tries b <= max_n_tries)%nat
  /\ (b = a \/ (n_tries a < n_tries b)%nat).
Proof.
  induction 1 as [|b c Hab IH Hc Hs]; intros Ha.
  - split; [lia | now left].
  - destruct (IH Ha) as [Hb _].
    apply (loop_cond_tries) in Hc.
    apply newton_step_some in Hs as [_ ->]. cbn [n_tries].
    split; [lia | right; lia].
Qed.

End intersector_more.

(** X5. The loop never makes more than [max_n_tries] passes, and after
    [k] passes the counter is [k]. *)
Theorem at_most_max_n_tries_passes
        (sqrt : scalar -> scalar) (h : helix) (m : mask) (trf : transform3)
        (k : nat) (st : newton_state) :
  newton_iterate h m trf k (initial_state sqrt h m) = Some st ->
  (k <= max_n_tries)%nat /\ n_tries st = k.
Proof.
  intros H.
  pose proof (newton_iterate_tries _ _ _ _ _ _ H) as Hn.
  cbn [initial_state n_tries] in Hn.
  apply newton_iterate_reaches in H.
  destruct (loop_reaches_tries h m trf _ _ H) as [Hle _]; [cbn; lia|].
  split; lia.
Qed.

Lemma at_most_max_n_tries_passes_witness :
  exists st,
    newton_iterate tangent_line (cylinder_mask (lit 1) 7) identity_transform
                   100 (initial_state sqrt_q tangent_line
                                      (cylinder_mask (lit 1) 7)) = Some st
    /\ (100 <= max_n_tries)%nat /\ n_tries st = 100%nat.
Proof.
  eexists. split; [vm_compute; reflexivity|].
  apply (at_most_max_n_tries_passes
           sqrt_q tangent_line (cylinder_mask (lit 1) 7) identity_transform).
  vm_compute; reflexivity.
Defined.

Lemma newton_loop_same_radius (h : helix) (m1 m2 : mask) (trf : transform3) :
  mask_values m1 0 = mask_values m2 0 ->
  forall fuel st,
    newton_loop h m1 trf fuel st = newton_loop h m2 trf fuel st.
Proof.
  intros Hr. induction fuel as [|fuel IH]; intros st; cbn [newton_loop].
  - reflexivity.
  - unfold newton_step, r. rewrite Hr.
    destruct (loop_cond st); [|reflexivity].
    destruct (eqb (denom_at h trf (s st)) (lit 0)); [reflexivity|].
    apply IH.
Qed.

(** X6. The search looks at the mask only through its radius: two masks
    with the same first boundary value give the same path, point, direction
    flag and slot 1, whatever their boundary tests, volume links and
    tolerances. *)
Theorem mask_boundary_does_not_steer_the_search
        (sqrt : scalar -> scalar) (h : helix) (m1 m2 : mask)
        (trf : transform3) (t1 t2 : scalar) :
  mask_values m1 0 = mask_values m2 0 ->
  option_map (fun out : output_type =>
                (path (fst out), p3 (fst out), direction (fst out), snd out))
             (helix_cylinder_intersector sqrt h m1 trf t1)
  = option_map (fun out : output_type =>
                  (path (fst out), p3 (fst out), direction (fst out), snd out))
               (helix_cylinder_intersector sqrt h m2 trf t2).
Proof.
  intros Hr. unfold helix_cylinder_intersector.
  rewrite (newton_loop_same_radius h m1 m2 trf Hr).
  assert (Hi : initial_state sqrt h m1 = initial_state sqrt h m2)
    by (unfold initial_state, r; now rewrite Hr).
  rewrite Hi.
  destruct (newton_loop h m2 trf max_n_tries (initial_state sqrt h m2))
    as [[|st]|]; cbn [option_map finish]; try reflexivity.
  destruct (n_tries st =? max_n_tries)%nat; reflexivity.
Qed.

Lemma mask_boundary_does_not_steer_the_search_witness :
  option_map (fun out : output_type =>
                (path (fst out), p3 (fst out), direction (fst out), snd out))
             (helix_cylinder_intersector
                sqrt_q crossing_line (cylinder_mask (lit 3) 7)
                identity_transform tol)
  = option_map (fun out : output_type =>
                  (path (fst out), p3 (fst out), direction (fst out), snd out))
               (helix_cylinder_intersector
                  sqrt_q crossing_line
                  (mk_mask (fun _ => lit 3) (fun _ _ => outside) 0
                           cartesian2.global_to_local)
                  identity_transform (lit 0)).
Proof.
  apply mask_boundary_does_not_steer_the_search. reflexivity.
Defined.

Section intersector_exits.
Variables (h : helix) (m : mask) (trf : transform3).

Lemma newton_iterate_one_more (k : nat) :
  forall a b c,
    newton_iterate h m trf k a = Some b ->
    loop_cond b = true -> newton_step h m trf b = Some c ->
    newton_iterate h m trf (S k) a = Some c.
Proof.
  induction k as [|k IH]; intros a b c Hk Hc Hs.
  - cbn in Hk. injection Hk as ->. cbn. now rewrite Hc, Hs.
  - cbn [newton_iterate] in Hk.
    destruct (loop_cond a) eqn:Hca; [|discriminate].
    destruct (newton_step h m trf a) as [a'|] eqn:Hsa; [|discriminate].
    change (newton_iterate h m trf (S (S k)) a)
      with (if loop_cond a
            then match newton_step h m trf a with
                 | Some st' => newton_iterate h m trf (S k) st'
                 | None => None
                 end
            else None).
    rewrite Hca, Hsa. eapply IH; eassumption.
Qed.

Lemma loop_reaches_iterate (a b : newton_state) :
  loop_reaches h m trf a b ->
  exists k, newton_iterate h m trf k a = Some b.
Proof.
  induction 1 as [|b c Hab [k IH] Hc Hs].
  - exists O. reflexivity.
  - exists (S k). eapply newton_iterate_one_more; eassumption.
Qed.

Lemma newton_loop_zero (fuel : nat) :
  forall a, newton_loop h m trf fuel a = Some zero_denominator ->
            exists st, loop_reaches h m trf a st
                       /\ loop_cond st = true
                       /\ newton_step h m trf st = None.
Proof.
  induction fuel as [|fuel IH]; intros a; cbn [newton_loop];
    destruct (loop_cond a) eqn:Hc; try discriminate.
  destruct (newton_step h m trf a) as [a'|] eqn:Hs.
  - intros H. destruct (IH _ H) as (st & Hr & Hst).
    exists st. split; [|exact Hst].
    eapply loop_reaches_first_pass; eassumption.
  - intros _. exists a. repeat split; try assumption. constructor.
Qed.

Lemma newton_step_none_iff (st : newton_state) :
  newton_step h m trf st = None
  <-> eqb (denom_at h trf (s st)) (lit 0) = true.
Proof.
  unfold newton_step.
  destruct (eqb (denom_at h trf (s st)) (lit 0)); split;
    congruence.
Qed.

End intersector_exits.

(** X8. The intersector returns the untouched array exactly when a pass
    starts with a zero denominator or the loop makes its 100th pass. *)
Theorem no_intersection_iff
        (sqrt : scalar -> scalar) (h : helix) (m : mask) (trf : transform3)
        (mask_tolerance : scalar) :
  helix_cylinder_intersector sqrt h m trf mask_tolerance
  = Some (default_intersection, default_intersection)
  <-> (exists st,
          loop_reaches h m trf (initial_state sqrt h m) st
          /\ loop_cond st = true
          /\ eqb (denom_at h trf (s st)) (lit 0) = true)
      \/ (exists st,
             newton_iterate h m trf max_n_tries (initial_state sqrt h m)
             = Some st).
Proof.
  split.
  - unfold helix_cylinder_intersector.
    destruct (newton_loop_total h m trf max_n_tries
                                (initial_state sqrt h m)) as [e He];
      [cbn; lia|].
    rewrite He. cbn [option_map]. destruct e as [|st]; cbn [finish].
    + intros _. left.
      destruct (newton_loop_zero h m trf _ _ He) as (st & Hr & Hc & Hs).
      exists st. repeat split; try assumption.
      now apply newton_step_none_iff in Hs.
    + destruct (Nat.eqb_spec (n_tries st) max_n_tries) as [En|En].
      * intros _. right. exists st.
        apply newton_loop_done in He as [Hr _].
        destruct (loop_reaches_iterate h m trf _ _ Hr) as [k Hk].
        pose proof (newton_iterate_tries _ _ _ _ _ _ Hk) as Hn.
        cbn [initial_state n_tries] in Hn.
        assert (k = max_n_tries) by lia. now subst k.
      * intros H. injection H as H. discriminate.
  - intros [(st & Hr & Hc & Hd)|(st & Hit)].
    + eapply zero_denominator_output; eassumption.
    + eapply hundredth_pass_gives_nothing; eassumption.
Qed.

(** ** More on the consistency checker *)

Lemma visit_each_unit_ok (f : surface_desc -> result unit)
      (sfs : list surface_desc) :
  visit_each (fun sf _ => f sf) sfs tt = ok tt
  <-> forall ref, In ref sfs -> f ref = ok tt.
Proof.
  induction sfs as [|sf rest IH]; cbn [visit_each].
  - split; [intros _ ref [] | reflexivity].
  - destruct (f sf) as [[]| |] eqn:Hf; cbn [bind].
    + rewrite IH. split.
      * intros H ref [<-|Hin]; [exact Hf | now apply H].
      * intros H ref Hin. apply H. now right.
    + split; [discriminate|]. intros H.
      rewrite (H sf (or_introl eq_refl)) in Hf. discriminate.
    + split; [discriminate|]. intros H.
      rewrite (H sf (or_introl eq_refl)) in Hf. discriminate.
Qed.

Lemma visit_links_unit_ok (f : surface_desc -> result unit) (det : detector)
      (links : list typed_index) :
  visit_links (fun sf _ => f sf) det links tt = ok tt
  <-> forall l, In l links -> is_invalid_value (index l) = false ->
                exists sfs, accel_lookup det l = ok sfs
                            /\ forall ref, In ref sfs -> f ref = ok tt.
Proof.
  induction links as [|l0 rest IH]; cbn [visit_links].
  - split; [intros _ l [] | reflexivity].
  - destruct (is_invalid_value (index l0)) eqn:Hl0.
    + rewrite IH. split.
      * intros H l [<-|Hin] Hl; [congruence | now apply H].
      * intros H l Hin. apply H. now right.
    + destruct (accel_lookup det l0) as [sfs0| |] eqn:Hlk; cbn [bind].
      * destruct (visit_each (fun sf _ => f sf) sfs0 tt) as [[]| |] eqn:Hv;
          cbn [bind].
        -- rewrite IH. pose proof (proj1 (visit_each_unit_ok f sfs0) Hv) as Hv'.
           split.
           ++ intros H l [<-|Hin] Hl; [|now apply H].
              exists sfs0. split; [exact Hlk | exact Hv'].
           ++ intros H l Hin. apply H. now right.
        -- split; [discriminate|]. intros H.
           destruct (H l0 (or_introl eq_refl) Hl0) as (sfs & Hs & Hall).
           rewrite Hlk in Hs. injection Hs as <-.
           apply (proj2 (visit_each_unit_ok f sfs0)) in Hall. congruence.
        -- split; [discriminate|]. intros H.
           destruct (H l0 (or_introl eq_refl) Hl0) as (sfs & Hs & Hall).
           rewrite Hlk in Hs. injection Hs as <-.
           apply (proj2 (visit_each_unit_ok f sfs0)) in Hall. congruence.
      * split; [discriminate|]. intros H.
        destruct (H l0 (or_introl eq_refl) Hl0) as (sfs & Hs & _).
        congruence.
      * split; [discriminate|]. intros H.
        destruct (H l0 (or_introl eq_refl) Hl0) as (sfs & Hs & _).
        congruence.
Qed.

(** X9. [surface_checker] accepts a surface found in a structure of
    volume [idx] exactly when the self-check passes, the surface names
    [idx] as its volume, its mask resolves to a volume link that is the
    invalid value or below the number of volumes, and the surface lookup
    holds the very same descriptor at its index. *)
Theorem surface_checker_accepts_iff
        (surface_self_check : detector -> surface_desc -> bool * diag)
        (sf : surface_desc) (det : detector) (idx : dindex) :
  surface_checker surface_self_check sf det idx = ok tt
  <-> surface_in_place surface_self_check det idx sf.
Proof.
  unfold surface_checker, surface_in_place.
  destruct (surface_self_check det sf) as [[|] es]; cbn [fst negb];
    [|split; [discriminate | intros [? _]; discriminate]].
  destruct (N.eqb_spec (sf_volume sf) idx) as [E|E]; cbn [negb];
    [|split; [discriminate | intros (_ & ? & _); contradiction]].
  destruct (surface_volume_link det sf) as [vlink| |]; cbn [bind];
    [|split; [discriminate | intros (_ & _ & (? & ? & _) & _); discriminate]
     |split; [discriminate | intros (_ & _ & (? & ? & _) & _); discriminate]].
  destruct (is_invalid_value vlink) eqn:Hinv; cbn [negb andb].
  - destruct (surface_lookup det sf) as [sf'| |]; cbn [bind];
      [|split; [discriminate | intros (_ & _ & _ & ?); discriminate]
       |split; [discriminate | intros (_ & _ & _ & ?); discriminate]].
    destruct (surface_eqb sf' sf) eqn:He; cbn [negb].
    + apply surface_eqb_eq in He. subst sf'. split; [|reflexivity].
      intros _. repeat split; try assumption.
      exists vlink. split; [reflexivity | now left].
    + split; [discriminate|]. intros (_ & _ & _ & H).
      injection H as ->. rewrite (proj2 (surface_eqb_eq sf sf) eq_refl) in He.
      discriminate.
  - destruct (N.leb_spec (N.of_nat (List.length (volumes det))) vlink)
      as [Hle|Hlt].
    + split; [discriminate|].
      intros (_ & _ & (v & Hv & [Hi|Hl]) & _); injection Hv as <-.
      * congruence.
      * lia.
    + destruct (surface_lookup det sf) as [sf'| |]; cbn [bind];
        [|split; [discriminate | intros (_ & _ & _ & ?); discriminate]
         |split; [discriminate | intros (_ & _ & _ & ?); discriminate]].
      destruct (surface_eqb sf' sf) eqn:He; cbn [negb].
      * apply surface_eqb_eq in He. subst sf'. split; [|reflexivity].
        intros _. repeat split; try assumption.
        exists vlink. split; [reflexivity | now right].
      * split; [discriminate|]. intros (_ & _ & _ & H).
        injection H as ->.
        rewrite (proj2 (surface_eqb_eq sf sf) eq_refl) in He. discriminate.
Qed.

Section acceptance.
Variable surface_self_check : detector -> surface_desc -> bool * diag.
Variable volume_self_check : detector -> volume_desc -> bool * diag.

Lemma check_material_unit (det : detector) (l : option typed_index)
      (u : unit) :
  check_material det l = ok u <-> check_material det l = ok tt.
Proof. destruct u. reflexivity. Qed.

Lemma check_volume_iff (det : detector) (idx : dindex) (vol : volume_desc)
      (es es' : diag) :
  check_volume surface_self_check volume_self_check det idx vol es = ok es'
  <-> volume_in_place surface_self_check volume_self_check det idx vol
      /\ es' = es ++ snd (volume_self_check det vol).
Proof.
  unfold check_volume, volume_in_place, visit_surfaces.
  destruct (volume_self_check det vol) as [[|] out]; cbn [fst snd negb];
    [|split; [discriminate | intros [[? _] _]; discriminate]].
  destruct (N.eqb_spec (vol_index vol) idx) as [E|E]; cbn [negb];
    [|split; [discriminate | intros [(_ & ? & _) _]; contradiction]].
  pose proof (visit_links_unit_ok
                (fun sf => surface_checker surface_self_check sf det
                                           (vol_index vol))
                det (vol_accel_links vol)) as Hlinks.
  destruct (visit_links _ det (vol_accel_links vol) tt) as [[]| |];
    cbn [bind].
  - destruct (check_material det (vol_material vol)) as [[]| |]; cbn [bind].
    + split.
      * intros H; injection H as <-. split; [|reflexivity].
        repeat split; try assumption.
        intros l Hin Hl.
        destruct (proj1 Hlinks eq_refl l Hin Hl) as (sfs & Hs & Hall).
        exists sfs. split; [exact Hs|]. intros ref Href.
        apply surface_checker_accepts_iff. now apply Hall.
      * intros [_ ->]. reflexivity.
    + split; [discriminate | intros [(_ & _ & _ & ?) _]; discriminate].
    + split; [discriminate | intros [(_ & _ & _ & ?) _]; discriminate].
  - split; [discriminate|]. intros [(_ & _ & H & _) _].
    assert (Hok : @throws unit e = ok tt); [|discriminate].
    apply Hlinks. intros l Hin Hl.
    destruct (H l Hin Hl) as (sfs & Hs & Hall).
    exists sfs. split; [exact Hs|]. intros ref Href.
    apply surface_checker_accepts_iff. now apply Hall.
  - split; [discriminate|]. intros [(_ & _ & H & _) _].
    assert (Hok : @out_of_range unit = ok tt); [|discriminate].
    apply Hlinks. intros l Hin Hl.
    destruct (H l Hin Hl) as (sfs & Hs & Hall).
    exists sfs. split; [exact Hs|]. intros ref Href.
    apply surface_checker_accepts_iff. now apply Hall.
Qed.

Lemma check_volumes_iff (det : detector) (vols : list volume_desc) :
  forall (i : dindex) (es : diag),
    (exists es', check_volumes surface_self_check volume_self_check
                               det i vols es = ok es')
    <-> forall k vol,
        nth_error vols k = Some vol ->
        volume_in_place surface_self_check volume_self_check det
                        (i + N.of_nat k)%N vol.
Proof.
  induction vols as [|v rest IH]; intros i es; cbn [check_volumes].
  - split; [intros _ [|k] vol H; discriminate | eauto].
  - split.
    + intros [es' H].
      destruct (check_volume _ _ det i v es) as [es1| |] eqn:Hv;
        cbn [bind] in H; try discriminate.
      apply check_volume_iff in Hv as [Hv _].
      intros [|k] vol Hk; cbn [nth_error] in Hk.
      * injection Hk as <-. now rewrite N.add_0_r.
      * replace (i + N.of_nat (S k))%N with (N.succ i + N.of_nat k)%N
          by lia.
        apply (proj1 (IH (N.succ i) es1)); eauto.
    + intros H.
      assert (Hv : volume_in_place surface_self_check volume_self_check
                                   det i v).
      { specialize (H O v eq_refl). now rewrite N.add_0_r in H. }
      rewrite (proj2 (check_volume_iff det i v es _) (conj Hv eq_refl)).
      cbn [bind]. apply IH. intros k vol Hk.
      replace (N.succ i + N.of_nat k)%N with (i + N.of_nat (S k))%N by lia.
      now apply H.
Qed.

(** *** The search, when every structure holds surfaces of one volume *)

Lemma visit_each_finder_same_volume (sf : surface_desc)
      (sfs : list surface_desc) :
  (forall ref, In ref sfs -> sf_volume ref = sf_volume sf) ->
  forall b, visit_each (surface_finder sf) sfs b
            = ok (b || existsb (fun ref => surface_eqb ref sf) sfs).
Proof.
  induction sfs as [|ref rest IH]; intros Hvol b; cbn [visit_each existsb].
  - now rewrite orb_false_r.
  - unfold surface_finder at 1.
    rewrite (Hvol ref (or_introl eq_refl)), N.eqb_refl. cbn [negb].
    destruct (surface_eqb ref sf); cbn [bind];
      rewrite IH by (intros r' Hr; apply Hvol; now right).
    + now rewrite orb_true_r.
    + reflexivity.
Qed.

Lemma visit_links_finder_same_volume (det : detector) (sf : surface_desc)
      (links : list typed_index) :
  (forall l, In l links -> is_invalid_value (index l) = false ->
             exists sfs, accel_lookup det l = ok sfs
                         /\ forall ref, In ref sfs ->
                                        sf_volume ref = sf_volume sf) ->
  forall b, exists b',
      visit_links (surface_finder sf) det links b = ok b'
      /\ (b' = true
          <-> b = true
              \/ exists l sfs, In l links
                               /\ is_invalid_value (index l) = false
                               /\ accel_lookup det l = ok sfs
                               /\ In sf sfs).
Proof.
  induction links as [|l0 rest IH]; intros H b; cbn [visit_links].
  - exists b. split; [reflexivity|]. split; [now left|].
    intros [?|(l & _ & [] & _)]. assumption.
  - destruct (is_invalid_value (index l0)) eqn:Hl0.
    + destruct (IH (fun l Hin => H l (or_intror Hin)) b) as (b' & -> & Hb).
      exists b'. split; [reflexivity|]. rewrite Hb. split.
      * intros [?|(l & sfs & Hin & Hr)]; [now left|].
        right. exists l, sfs. split; [now right | exact Hr].
      * intros [?|(l & sfs & [<-|Hin] & Hl & Hr)]; [now left | congruence|].
        right. exists l, sfs. repeat split; try assumption; apply Hr.
    + destruct (H l0 (or_introl eq_refl) Hl0) as (sfs0 & Hlk & Hvol).
      rewrite Hlk. cbn [bind].
      rewrite visit_each_finder_same_volume by exact Hvol. cbn [bind].
      destruct (IH (fun l Hin => H l (or_intror Hin))
                   (b || existsb (fun ref => surface_eqb ref sf) sfs0))
        as (b' & -> & Hb).
      exists b'. split; [reflexivity|]. rewrite Hb. split.
      * intros [Hor|(l & sfs & Hin & Hr)].
        -- apply orb_true_iff in Hor as [?|Hex]; [now left|].
           apply existsb_exists in Hex as (ref & Href & He).
           apply surface_eqb_eq in He. subst ref.
           right. exists l0, sfs0. repeat split; try assumption. now left.
        -- right. exists l, sfs. split; [now right | exact Hr].
      * intros [->|(l & sfs & [<-|Hin] & Hl & Hs & Hsf)].
        -- now left.
        -- left. rewrite Hlk in Hs. injection Hs as <-.
           apply orb_true_iff. right. apply existsb_exists.
           exists sf. split; [exact Hsf | now apply surface_eqb_eq].
        -- right. exists l, sfs. repeat split; assumption.
Qed.

Lemma at_index_nth {A} (l : list A) (i : dindex) (a : A) :
  at_index l i = ok a <-> nth_error l (N.to_nat i) = Some a.
Proof.
  unfold at_index. destruct (nth_error l (N.to_nat i)); split;
    congruence.
Qed.

Lemma check_surface_iff (det : detector) (idx : dindex) (sf : surface_desc)
      (es es' : diag) :
  (forall k vol, nth_error (volumes det) k = Some vol ->
                 volume_in_place surface_self_check volume_self_check det
                                 (N.of_nat k) vol) ->
  check_surface surface_self_check det idx sf es = ok es'
  <-> lookup_entry_in_place surface_self_check det idx sf
      /\ es' = es ++ snd (surface_self_check det sf).
Proof.
  intros Hvols.
  unfold check_surface, lookup_entry_in_place, surface_registered,
    visit_surfaces.
  destruct (surface_self_check det sf) as [[|] out]; cbn [fst snd negb];
    [|split; [discriminate | intros [[? _] _]; discriminate]].
  destruct (N.eqb_spec (sf_index sf) idx) as [E|E]; cbn [negb];
    [|split; [discriminate | intros [(_ & ? & _) _]; contradiction]].
  destruct (at_index (volumes det) (sf_volume sf)) as [vol| |] eqn:Hvol;
    cbn [bind];
    [|split; [discriminate
             | intros [(_ & _ & (? & ? & ? & ? & _) & _) _]; discriminate]
     |split; [discriminate
             | intros [(_ & _ & (? & ? & ? & ? & _) & _) _]; discriminate]].
  pose proof (proj1 (at_index_nth _ _ _) Hvol) as Hnth.
  destruct (Hvols _ _ Hnth) as (_ & Hidx & Hlinks & _).
  rewrite N2Nat.id in Hidx.
  destruct (visit_links_finder_same_volume det sf (vol_accel_links vol))
    with (b := false) as (b' & Hv & Hb).
  { intros l Hin Hl. destruct (Hlinks l Hin Hl) as (sfs & Hs & Hall).
    exists sfs. split; [exact Hs|]. intros ref Href.
    destruct (Hall ref Href) as (_ & Hrv & _). congruence. }
  rewrite Hv. cbn [bind]. destruct b'; cbn [negb].
  - destruct (proj1 Hb eq_refl) as [?|(l & sfs & Hin & Hl & Hs & Hsf)];
      [discriminate|].
    destruct (check_material det (sf_material sf)) as [[]| |]; cbn [bind].
    + split.
      * intros H; injection H as <-. split; [|reflexivity].
        repeat split; try assumption.
        exists vol, l, sfs. repeat split; assumption.
      * intros [_ ->]. reflexivity.
    + split; [discriminate | intros [(_ & _ & _ & ?) _]; discriminate].
    + split; [discriminate | intros [(_ & _ & _ & ?) _]; discriminate].
  - split; [discriminate|].
    intros [(_ & _ & (vol' & l & sfs & Hvol' & Hin & Hl & Hs & Hsf) & _) _].
    injection Hvol' as <-.
    assert (false = true); [|discriminate].
    apply Hb. right. exists l, sfs. repeat split; assumption.
Qed.

Lemma check_surfaces_iff (det : detector) (sfs : list surface_desc) :
  (forall k vol, nth_error (volumes det) k = Some vol ->
                 volume_in_place surface_self_check volume_self_check det
                                 (N.of_nat k) vol) ->
  forall (i : dindex) (es : diag),
    (exists es', check_surfaces surface_self_check det i sfs es = ok es')
    <-> forall k sf,
        nth_error sfs k = Some sf ->
        lookup_entry_in_place surface_self_check det (i + N.of_nat k)%N sf.
Proof.
  intros Hvols.
  induction sfs as [|sf0 rest IH]; intros i es; cbn [check_surfaces].
  - split; [intros _ [|k] sf H; discriminate | eauto].
  - split.
    + intros [es' H].
      destruct (check_surface _ det i sf0 es) as [es1| |] eqn:Hs;
        cbn [bind] in H; try discriminate.
      apply (check_surface_iff det i sf0 es es1 Hvols) in Hs as [Hs _].
      intros [|k] sf Hk; cbn [nth_error] in Hk.
      * injection Hk as <-. now rewrite N.add_0_r.
      * replace (i + N.of_nat (S k))%N with (N.succ i + N.of_nat k)%N
          by lia.
        apply (proj1 (IH (N.succ i) es1)); eauto.
    + intros H.
      assert (Hs : lookup_entry_in_place surface_self_check det i sf0).
      { specialize (H O sf0 eq_refl). now rewrite N.add_0_r in H. }
      rewrite (proj2 (check_surface_iff det i sf0 es _ Hvols)
                     (conj Hs eq_refl)).
      cbn [bind]. apply IH. intros k sf Hk.
      replace (N.succ i + N.of_nat k)%N with (i + N.of_nat (S k))%N by lia.
      now apply H.
Qed.

End acceptance.

(** X10. [check_consistency] returns exactly when the five presence
    checks pass, every volume is in place at its position, and every entry
    of the surface lookup is in place at its position; and when it returns,
    it returns true after printing the warnings of [check_empty] only. *)
Theorem check_consistency_accepts_iff
        (surface_self_check : detector -> surface_desc -> bool * diag)
        (volume_self_check : detector -> volume_desc -> bool * diag)
        (det : detector) (verbose : bool) :
  ((exists cout b,
       check_consistency surface_self_check volume_self_check det verbose
       = (cout, ok b))
   <-> (volumes det <> [] /\ surfaces det <> [] /\ transform_store det <> []
        /\ all_empty list_empty (mask_store det) = false
        /\ find_portals det = true)
       /\ (forall k vol,
              nth_error (volumes det) k = Some vol ->
              volume_in_place surface_self_check volume_self_check det
                              (N.of_nat k) vol)
       /\ (forall k sf,
              nth_error (surfaces det) k = Some sf ->
              lookup_entry_in_place surface_self_check det (N.of_nat k) sf))
  /\ (forall cout b,
         check_consistency surface_self_check volume_self_check det verbose
         = (cout, ok b) ->
         b = true /\ cout = check_empty_warnings det verbose).
Proof.
  unfold check_consistency, check_empty. split.
  - split.
    + intros (cout & b & H).
      destruct (list_empty (volumes det)) eqn:Hv; [discriminate|].
      destruct (list_empty (surfaces det)) eqn:Hs; [discriminate|].
      destruct (list_empty (transform_store det)) eqn:Ht; [discriminate|].
      destruct (all_empty list_empty (mask_store det)) eqn:Hm;
        [discriminate|].
      destruct (find_portals det) eqn:Hp; [|discriminate].
      cbn [negb] in H. injection H as _ H.
      destruct (check_volumes _ _ det 0%N (volumes det) []) as [es| |] eqn:Hcv;
        cbn [bind] in H; try discriminate.
      destruct (check_surfaces _ det 0%N (surfaces det) es) as [es'| |]
        eqn:Hcs; cbn [bind] in H; try discriminate.
      apply list_empty_false in Hv, Hs, Ht.
      assert (Hvols : forall k vol,
                 nth_error (volumes det) k = Some vol ->
                 volume_in_place surface_self_check volume_self_check det
                                 (N.of_nat k) vol).
      { intros k vol Hk.
        apply (proj1 (check_volumes_iff surface_self_check volume_self_check
                                        det (volumes det) 0%N [])
                     (ex_intro _ es Hcv) k vol Hk). }
      split; [repeat split; assumption|]. split; [exact Hvols|].
      intros k sf Hk.
      apply (proj1 (check_surfaces_iff surface_self_check volume_self_check
                                       det (surfaces det) Hvols 0%N es)
                   (ex_intro _ es' Hcs) k sf Hk).
    + intros ((Hv & Hs & Ht & Hm & Hp) & Hvols & Hsfs).
      apply list_empty_false in Hv, Hs, Ht.
      rewrite Hv, Hs, Ht, Hm, Hp. cbn [negb].
      destruct (proj2 (check_volumes_iff surface_self_check volume_self_check
                                         det (volumes det) 0%N []) Hvols)
        as [es ->].
      cbn [bind].
      destruct (proj2 (check_surfaces_iff surface_self_check
                                          volume_self_check
                                          det (surfaces det) Hvols 0%N es)
                      Hsfs) as [es' ->].
      cbn [bind]. eauto.
  - intros cout b H.
    destruct (list_empty (volumes det)); [discriminate|].
    destruct (list_empty (surfaces det)); [discriminate|].
    destruct (list_empty (transform_store det)); [discriminate|].
    destruct (all_empty list_empty (mask_store det)); [discriminate|].
    destruct (negb (find_portals det)); [discriminate|].
    injection H as <- H.
    destruct (check_volumes _ _ det 0%N (volumes det) []) as [es| |];
      cbn [bind] in H; try discriminate.
    destruct (check_surfaces _ det 0%N (surfaces det) es) as [es'| |];
      cbn [bind] in H; try discriminate.
    injection H as <-. split; reflexivity.
Qed.

(** X11. The verbose flag never changes the verdict: the result is the
    same, and every line printed without the flag is printed with it. *)
Theorem verbose_does_not_change_the_verdict
        (surface_self_check : detector -> surface_desc -> bool * diag)
        (volume_self_check : detector -> volume_desc -> bool * diag)
        (det : detector) :
  snd (check_consistency surface_self_check volume_self_check det true)
  = snd (check_consistency surface_self_check volume_self_check det false)
  /\ (forall line,
         In line (fst (check_consistency surface_self_check volume_self_check
                                         det false)) ->
         In line (fst (check_consistency surface_self_check volume_self_check
                                         det true))).
Proof.
  unfold check_consistency, check_empty.
  destruct (list_empty (volumes det)); [split; [reflexivity | auto]|].
  destruct (list_empty (surfaces det)); [split; [reflexivity | auto]|].
  destruct (list_empty (transform_store det)); [split; [reflexivity | auto]|].
  destruct (all_empty list_empty (mask_store det));
    [split; [reflexivity | auto]|].
  destruct (negb (find_portals det)); [split; [reflexivity | auto]|].
  cbn [fst snd]. split; [reflexivity|].
  unfold check_empty_warnings. intros line.
  rewrite !in_app_iff.
  destruct (all_empty material_coll_empty (material_store det));
    cbn [In]; tauto.
Qed.

Lemma check_consistency_accepts_iff_witness :
  exists cout b,
    check_consistency examples.plain_surface_self_check
                      examples.plain_volume_self_check
                      examples.toy_detector false = (cout, ok b).
Proof.
  apply (proj2 (proj1 (check_consistency_accepts_iff
                         examples.plain_surface_self_check
                         examples.plain_volume_self_check
                         examples.toy_detector false))).
  split; [|split].
  - repeat split; try discriminate; reflexivity.
  - intros [|[|k]] vol Hk; try discriminate. injection Hk as <-.
    split; [reflexivity|]. split; [reflexivity|]. split; [|reflexivity].
    intros l [<-|[]] _. exists [examples.portal0].
    split; [reflexivity|]. intros ref [<-|[]].
    split; [reflexivity|]. split; [reflexivity|]. split; [|reflexivity].
    exists 0%N. split; [reflexivity | right; reflexivity].
  - intros [|[|k]] sf Hk; try discriminate. injection Hk as <-.
    split; [reflexivity|]. split; [reflexivity|]. split; [|reflexivity].
    exists (mk_volume 0%N None [mk_link 0%N 0%N]), (mk_link 0%N 0%N),
      [examples.portal0].
    repeat split; try reflexivity; now left.
Defined.

(** X12. The material checker accepts a material map exactly when the
    map exists at the index, has at least one bin, none of its bins is
    empty, and every slab in it is valid. *)
Theorem material_map_accepted_iff
        (maps : list material_map) (idx : dindex) (id : N) :
  material_checker (material_maps maps) idx id = ok tt
  <-> exists mat_map,
      nth_error maps (N.to_nat idx) = Some mat_map
      /\ bins mat_map <> []
      /\ forall bin, In bin (bins mat_map) ->
                     bin <> []
                     /\ forall slab, In slab bin -> slab_bool slab = true.
Proof.
  unfold material_checker, at_index.
  destruct (nth_error maps (N.to_nat idx)) as [mat_map|]; cbn [bind];
    [|split; [discriminate | intros (? & ? & _); discriminate]].
  unfold map_all.
  destruct (N.eqb_spec (N.of_nat (List.length (List.concat (bins mat_map))))
                       0%N) as [Hz|Hz].
  - split; [discriminate|]. intros (mm & Hmm & Hne & Hbins).
    injection Hmm as <-. exfalso.
    destruct (bins mat_map) as [|[|slab bin] rest]; cbn in Hz.
    + now apply Hne.
    + destruct (Hbins [] (or_introl eq_refl)) as [H _]. now apply H.
    + lia.
  - destruct (existsb list_empty (bins mat_map)) eqn:Hex.
    + split; [discriminate|]. intros (mm & Hmm & _ & Hbins).
      injection Hmm as <-. exfalso.
      apply existsb_exists in Hex as (bin & Hin & He).
      apply list_empty_true in He. now apply (proj1 (Hbins bin Hin)).
    + destruct (find (fun slab => negb (slab_bool slab))
                     (List.concat (bins mat_map))) as [slab|] eqn:Hf.
      * split; [discriminate|]. intros (mm & Hmm & _ & Hbins).
        injection Hmm as <-. exfalso.
        apply find_some in Hf as [Hin Hb].
        apply in_concat in Hin as (bin & Hbin & Hslab).
        rewrite (proj2 (Hbins bin Hbin) slab Hslab) in Hb. discriminate.
      * split; [|reflexivity]. intros _. exists mat_map.
        split; [reflexivity|]. split.
        -- intros E. rewrite E in Hz. now apply Hz.
        -- intros bin Hbin. split.
           ++ intros E. subst bin.
              assert (existsb list_empty (bins mat_map) = true);
                [|congruence].
              apply existsb_exists. exists []. split; [exact Hbin
                                                       | reflexivity].
           ++ intros slab Hslab.
              pose proof (find_none _ _ Hf slab) as Hn. cbn beta in Hn.
              apply negb_false_iff, Hn, in_concat.
              exists bin. split; assumption.
Qed.

(** X13. The material checker accepts homogeneous volume material exactly
    when the entry exists and is not vacuum, and homogeneous surface
    material exactly when the entry exists and is a valid slab; an entry
    that exists and is rejected is reported by [throw_material_error], an
    [invalid_argument] that names the kind of material, the index and the
    entry. *)
Theorem homogeneous_material_accepted_iff (idx : dindex) (id : N) :
  (forall mats,
      material_checker (hom_volume_material mats) idx id = ok tt
      <-> exists mat, nth_error mats (N.to_nat idx) = Some mat
                      /\ mat <> vacuum)
  /\ (forall slabs,
         material_checker (hom_surface_material slabs) idx id = ok tt
         <-> exists slab, nth_error slabs (N.to_nat idx) = Some slab
                          /\ slab_bool slab = true)
  /\ (forall mats,
         nth_error mats (N.to_nat idx) = Some vacuum ->
         material_checker (hom_volume_material mats) idx id
         = throws (invalid_argument
                     [text "Invalid material found in: ";
                      text "homogeneous volume material";
                      text " at index "; number idx; text ": ";
                      show_material vacuum]))
  /\ (forall slabs slab,
         nth_error slabs (N.to_nat idx) = Some slab ->
         slab_bool slab = false ->
         material_checker (hom_surface_material slabs) idx id
         = throws (invalid_argument
                     [text "Invalid material found in: ";
                      text "homogeneous surface material";
                      text " at index "; number idx; text ": ";
                      show_slab slab])).
Proof.
  split; [|split; [|split]].
  - intros mats. unfold material_checker, at_index.
    destruct (nth_error mats (N.to_nat idx)) as [mat|]; cbn [bind];
      [|split; [discriminate | intros (? & ? & _); discriminate]].
    destruct mat as [|name]; cbn [material_eqb].
    + split; [discriminate|]. intros (m & Hm & Hne). injection Hm as <-.
      now contradiction Hne.
    + split; [|reflexivity]. intros _. eexists. split; [reflexivity|].
      discriminate.
  - intros slabs. unfold material_checker, at_index.
    destruct (nth_error slabs (N.to_nat idx)) as [slab|]; cbn [bind];
      [|split; [discriminate | intros (? & ? & _); discriminate]].
    destruct (slab_bool slab) eqn:Hb; cbn [negb].
    + split; [|reflexivity]. intros _. exists slab. split; [reflexivity
                                                           | exact Hb].
    + split; [discriminate|]. intros (sl & Hs & Hsl). injection Hs as <-.
      congruence.
  - intros mats Hm. unfold material_checker, at_index. rewrite Hm.
    reflexivity.
  - intros slabs slab Hs Hb. unfold material_checker, at_index.
    rewrite Hs. cbn [bind]. rewrite Hb. reflexivity.
Qed.

Lemma report_empty_from_lines {C} (coll_empty : C -> bool) (store : list C)
      (store_name : string) :
  forall (i : N) (line : diag),
    In line (report_empty_from coll_empty store store_name i)
    <-> exists k c,
        nth_error store k = Some c /\ coll_empty c = true
        /\ line = [text "WARNING: "; text store_name;
                   text " has empty collection no. ";
                   number (i + N.of_nat k)].
Proof.
  induction store as [|c0 rest IH]; intros i line; cbn [report_empty_from].
  - split; [intros [] | intros ([|k] & c & H & _); discriminate].
  - rewrite in_app_iff, IH. split.
    + intros [H|(k & c & Hk & Hc & ->)].
      * destruct (coll_empty c0) eqn:Hc0; [|destruct H].
        destruct H as [<-|[]]. exists O, c0.
        repeat split; try assumption. now rewrite N.add_0_r.
      * exists (S k), c. repeat split; try assumption.
        replace (i + N.of_nat (S k))%N with (N.succ i + N.of_nat k)%N
          by lia.
        reflexivity.
    + intros ([|k] & c & Hk & Hc & ->); cbn [nth_error] in Hk.
      * injection Hk as ->. left. rewrite Hc, N.add_0_r. now left.
      * right. exists k, c. repeat split; try assumption.
        replace (i + N.of_nat (S k))%N with (N.succ i + N.of_nat k)%N
          by lia.
        reflexivity.
Qed.

(** X14. [report_empty] prints one warning for every empty collection
    of the store and nothing else: a line is printed exactly when it names
    the store and the position of an empty collection. *)
Theorem report_empty_names_the_empty_collections
        {C} (coll_empty : C -> bool) (store : list C) (store_name : string)
        (line : diag) :
  In line (report_empty coll_empty store store_name)
  <-> exists k c,
      nth_error store k = Some c /\ coll_empty c = true
      /\ line = [text "WARNING: "; text store_name;
                 text " has empty collection no. "; number (N.of_nat k)].
Proof.
  unfold report_empty. rewrite report_empty_from_lines.
  split; intros (k & c & Hk & Hc & ->); exists k, c;
    repeat split; try assumption; reflexivity.
Qed.

Lemma report_empty_line_shape {C} (coll_empty : C -> bool) (store : list C)
      (store_name : string) (t : string) :
  ~ In [text t] (report_empty coll_empty store store_name).
Proof.
  intros H. apply report_empty_from_lines in H as (k & c & _ & _ & H).
  discriminate.
Qed.

(** X15. Among the warnings of [check_empty], the no-material line
    appears exactly when the material store is all empty, and the
    volume-finder line exactly when every entry of the volume search grid
    is the invalid value. *)
Theorem presence_warnings_iff (det : detector) (verbose : bool) :
  (In no_material_warning (check_empty_warnings det verbose)
   <-> all_empty material_coll_empty (material_store det) = true)
  /\ (In no_volume_finder_warning (check_empty_warnings det verbose)
      <-> forall v, In v (volume_search_grid det) ->
                    is_invalid_value v = true).
Proof.
  assert (Hfv : find_volumes (volume_search_grid det) = false
                <-> forall v, In v (volume_search_grid det) ->
                              is_invalid_value v = true).
  { unfold find_volumes. split.
    - intros H v Hin.
      destruct (is_invalid_value v) eqn:E; [reflexivity|].
      assert (existsb (fun v => negb (is_invalid_value v))
                      (volume_search_grid det) = true); [|congruence].
      apply existsb_exists. exists v. split; [exact Hin | now rewrite E].
    - intros H.
      destruct (existsb _ (volume_search_grid det)) eqn:E; [|reflexivity].
      apply existsb_exists in E as (v & Hin & Hv).
      rewrite (H v Hin) in Hv. discriminate. }
  unfold check_empty_warnings, no_material_warning, no_volume_finder_warning.
  split; rewrite !in_app_iff.
  - destruct (all_empty material_coll_empty (material_store det)).
    + split; [reflexivity | intros _; left; now left].
    + split; [|discriminate]. intros [H|[H|H]].
      * destruct verbose; [|destruct H].
        now apply report_empty_line_shape in H.
      * destruct verbose; [|destruct H].
        apply in_app_iff in H as [H|H];
          now apply report_empty_line_shape in H.
      * destruct (negb (find_volumes (volume_search_grid det)));
          [|destruct H].
        destruct H as [H|[]]. discriminate.
  - rewrite <- Hfv. split.
    + intros [H|[H|H]].
      * destruct (all_empty material_coll_empty (material_store det)).
        -- destruct H as [H|[]]. discriminate.
        -- destruct verbose; [|destruct H].
           now apply report_empty_line_shape in H.
      * destruct verbose; [|destruct H].
        apply in_app_iff in H as [H|H];
          now apply report_empty_line_shape in H.
      * destruct (find_volumes (volume_search_grid det)); [destruct H
                                                          | reflexivity].
    + intros ->. right. right. now left.
Qed.

(** ** More on the io type ids *)

Lemma position_bound (t : type_name) (reg : type_registry) :
  forall i, position t reg = Some i -> (i < List.length reg)%nat.
Proof.
  intros i H. apply position_some in H.
  apply nth_error_Some. congruence.
Qed.

Section lookup_facts.
Variable ID : Type.
Variable of_index : nat -> ID.
Variable unknown : ID.

Lemma lookup_injective (reg : type_registry) (t1 t2 : type_name) :
  (forall i j, (i < List.length reg)%nat -> (j < List.length reg)%nat ->
               of_index i = of_index j -> i = j) ->
  In t1 reg -> In t2 reg ->
  (if registry_is_defined reg t1 then registry_get_id of_index reg t1
   else unknown)
  = (if registry_is_defined reg t2 then registry_get_id of_index reg t2
     else unknown) ->
  t1 = t2.
Proof.
  intros Hinj H1 H2.
  rewrite (proj2 (registry_is_defined_In t1 reg) H1),
    (proj2 (registry_is_defined_In t2 reg) H2).
  apply registry_is_defined_In in H1, H2.
  unfold registry_is_defined, registry_get_id in *.
  destruct (position t1 reg) as [i|] eqn:E1; [|discriminate].
  destruct (position t2 reg) as [j|] eqn:E2; [|discriminate].
  intros E. apply Hinj in E; try (eapply position_bound; eassumption).
  subst j. apply position_some in E1, E2. congruence.
Qed.

Lemma lookup_unknown_iff (reg : type_registry) (t : type_name) :
  (forall i, (i < List.length reg)%nat -> of_index i <> unknown) ->
  (if registry_is_defined reg t then registry_get_id of_index reg t
   else unknown) = unknown
  <-> ~ In t reg.
Proof.
  intros Hu.
  destruct (registry_is_defined reg t) eqn:Hd.
  - pose proof (proj1 (registry_is_defined_In t reg) Hd) as Hin.
    unfold registry_is_defined, registry_get_id in *.
    destruct (position t reg) as [i|] eqn:E; [|discriminate].
    split; [|contradiction]. intros H. exfalso.
    apply (Hu i); [eapply position_bound; eassumption | exact H].
  - split; [|reflexivity]. intros _ Hin.
    apply registry_is_defined_In in Hin. congruence.
Qed.

End lookup_facts.

(** X16. As long as the cast from positions to ids is injective, two
    registered shape types (two registered grid frames) with the same io id
    are the same type. *)
Theorem get_id_separates_registered_types
        (ID : Type) (of_index : nat -> ID) (unknown : ID) :
  (forall i j, (i < 13)%nat -> (j < 13)%nat ->
               of_index i = of_index j -> i = j) ->
  (forall t1 t2,
      In t1 shape_registry -> In t2 shape_registry ->
      get_id_shape of_index unknown t1 = get_id_shape of_index unknown t2 ->
      t1 = t2)
  /\ (forall g1 g2,
         In (local_frame_type g1) frame_registry ->
         In (local_frame_type g2) frame_registry ->
         get_id_grid of_index unknown g1 = get_id_grid of_index unknown g2 ->
         local_frame_type g1 = local_frame_type g2).
Proof.
  intros Hinj. split.
  - intros t1 t2. apply lookup_injective.
    intros i j Hi Hj. apply Hinj; exact Hi || exact Hj.
  - intros g1 g2. unfold get_id_grid. apply lookup_injective.
    intros i j Hi Hj. cbn in Hi, Hj. apply Hinj; lia.
Qed.

Lemma get_id_separates_registered_types_witness :
  (forall t1 t2,
      In t1 shape_registry -> In t2 shape_registry ->
      get_id_shape (fun n : nat => n) shape_unknown t1
      = get_id_shape (fun n : nat => n) shape_unknown t2 ->
      t1 = t2)
  /\ (forall g1 g2,
         In (local_frame_type g1) frame_registry ->
         In (local_frame_type g2) frame_registry ->
         get_id_grid (fun n : nat => n) shape_unknown g1
         = get_id_grid (fun n : nat => n) shape_unknown g2 ->
         local_frame_type g1 = local_frame_type g2).
Proof.
  apply (get_id_separates_registered_types nat (fun n : nat => n)
                                           shape_unknown).
  intros i j _ _ E. exact E.
Defined.



(** X18. Homogeneous material types get the ids of positions 6 to 8 and
    the frames of material maps the ids of positions 0 to 5, so, the cast
    being injective, the two material lookups never give one id to both a
    homogeneous material and a material map. *)
Theorem material_ids_do_not_collide
        (ID : Type) (of_index : nat -> ID) (unknown : ID) :
  (forall i j, (i < 9)%nat -> (j < 9)%nat ->
               of_index i = of_index j -> i = j) ->
  forall (hom_t : type_name) (map_t : grid_type),
    In hom_t [material_slab_t; material_rod_t; material_t] ->
    In (local_frame_type map_t)
       [polar2_t; cartesian2_t; cartesian3_t; concentric_cylindrical2_t;
        cylindrical2_t; cylindrical3_t] ->
    (exists i, (6 <= i < 9)%nat
               /\ get_id_hom_material of_index unknown hom_t = of_index i)
    /\ (exists j, (j < 6)%nat
                  /\ get_id_material_map of_index unknown map_t = of_index j)
    /\ get_id_hom_material of_index unknown hom_t
       <> get_id_material_map of_index unknown map_t.
Proof.
  intros Hinj hom_t [frame] Hh Hm. cbn [local_frame_type] in Hm.
  assert (Hhom : exists i, (6 <= i < 9)%nat
                           /\ get_id_hom_material of_index unknown hom_t
                              = of_index i).
  { cbn in Hh. destruct Hh as [<-|[<-|[<-|[]]]];
      [exists 6%nat | exists 7%nat | exists 8%nat]; split;
        try lia; reflexivity. }
  assert (Hmap : exists j, (j < 6)%nat
                           /\ get_id_material_map of_index unknown
                                                  (mk_grid frame)
                              = of_index j).
  { cbn in Hm. destruct Hm as [<-|[<-|[<-|[<-|[<-|[<-|[]]]]]]];
      [exists 0%nat | exists 1%nat | exists 2%nat | exists 3%nat
       | exists 4%nat | exists 5%nat]; split; try lia; reflexivity. }
  split; [exact Hhom|]. split; [exact Hmap|].
  destruct Hhom as (i & Hi & ->), Hmap as (j & Hj & ->).
  intros E. apply Hinj in E; lia.
Qed.

Lemma material_ids_do_not_collide_witness :
  (exists i, (6 <= i < 9)%nat
             /\ get_id_hom_material (fun n : nat => n) 9%nat material_rod_t
                = i)
  /\ (exists j, (j < 6)%nat
                /\ get_id_material_map (fun n : nat => n) 9%nat
                                       (mk_grid cylindrical2_t) = j)
  /\ get_id_hom_material (fun n : nat => n) 9%nat material_rod_t
     <> get_id_material_map (fun n : nat => n) 9%nat (mk_grid cylindrical2_t).
Proof.
  apply (material_ids_do_not_collide nat (fun n : nat => n) 9%nat).
  - intros i j _ _ E. exact E.
  - right. left. reflexivity.
  - cbn. tauto.
Defined.

(** X19. [mask_info] gives type [void] exactly when it gives the invalid
    id; any other type it gives is one the detector defines and the shape
    registry of [get_id] holds, and is never the cuboid or the 3D cylinder;
    and two shape ids with the same resolved type, or the same resolved
    detector id, are equal. *)
Theorem mask_info_resolves_shapes
        (masks_is_defined : type_name -> bool) :
  (forall shape,
      (fst (mask_info shape masks_is_defined) = void_t
       <-> snd (mask_info shape masks_is_defined) = invalid_mask_id)
      /\ (fst (mask_info shape masks_is_defined) <> void_t ->
          masks_is_defined (fst (mask_info shape masks_is_defined)) = true
          /\ In (fst (mask_info shape masks_is_defined)) shape_registry)
      /\ fst (mask_info shape masks_is_defined) <> cuboid3D
      /\ fst (mask_info shape masks_is_defined) <> cylinder3D)
  /\ (forall s1 s2,
         fst (mask_info s1 masks_is_defined) <> void_t ->
         (fst (mask_info s1 masks_is_defined)
          = fst (mask_info s2 masks_is_defined)
          \/ snd (mask_info s1 masks_is_defined)
             = snd (mask_info s2 masks_is_defined)) ->
         s1 = s2).
Proof.
  split.
  - intros shape. unfold mask_info.
    destruct shape;
      try (match goal with
           | |- context [masks_is_defined ?t] =>
               destruct (masks_is_defined t) eqn:Hd
           end);
      cbn [fst snd];
      (split; [split; (reflexivity || discriminate)|]);
      (split; [intros H;
               first [now contradiction H
                     | split; [exact Hd | cbn; tauto]]|]);
      split; discriminate.
  - intros s1 s2. unfold mask_info.
    destruct s1;
      try (match goal with
           | |- context [if masks_is_defined ?t then (?t, ?v) else _] =>
               destruct (masks_is_defined t)
           end);
      cbn [fst snd]; intros Hne; try (now contradiction Hne);
      destruct s2;
      try (match goal with
           | |- context [if masks_is_defined ?t then (?t, ?v) else _] =>
               destruct (masks_is_defined t)
           end);
      cbn [fst snd]; intros [E|E]; try discriminate E; reflexivity.
Qed.

(** ** The material map writer *)

Section writer_facts.
Variable vol_surfaces : detector -> volume_desc -> list surface_desc.
Variable link_is_invalid : typed_index -> bool.
Variable det : detector.

Local Open Scope N_scope.

Lemma running_offset (a b : N) : (if a <? b then a else b) = N.min b a.
Proof. destruct (N.ltb_spec a b); lia. Qed.

Lemma fold_min_le (l : list N) :
  forall a, fold_left N.min l a <= a
            /\ forall x, In x l -> fold_left N.min l a <= x.
Proof.
  induction l as [|y rest IH]; intros a; cbn [fold_left].
  - split; [lia | intros x []].
  - destruct (IH (N.min a y)) as [H1 H2]. split; [lia|].
    intros x [<-|Hin]; [lia | now apply H2].
Qed.

Lemma fold_min_start (l : list N) :
  forall a, (forall x, In x l -> a <= x) -> fold_left N.min l a = a.
Proof.
  induction l as [|y rest IH]; intros a H; cbn [fold_left].
  - reflexivity.
  - rewrite N.min_l by (apply H; now left).
    apply IH. intros x Hin. apply H. now right.
Qed.

(** The surfaces that are passed on: those with a valid material link. *)
Lemma surfaces_fold (vol : volume_desc) (l : list surface_desc) :
  forall (off : dindex) (calls : list grid_call),
  exists new,
    fold_left (surface_step link_is_invalid record_call det vol) l
              (off, calls)
    = (fold_left N.min (map sf_index l) off, calls ++ new)
    /\ List.length new
       = List.length
           (filter (fun sf => match sf_material sf with
                              | Some lk => negb (link_is_invalid lk)
                              | None => false
                              end) l)
    /\ forall c, In c new ->
       exists pre sf post,
         l = pre ++ sf :: post
         /\ sf_material sf = Some (call_link c)
         /\ link_is_invalid (call_link c) = false
         /\ c = mk_call (call_link c) (vol_index vol)
                        (dindex_sub
                           (sf_index sf)
                           (fold_left N.min (map sf_index (pre ++ [sf]))
                                      off))
                        (sf_index sf).
Proof.
  induction l as [|sf0 rest IH]; intros off calls.
  - exists []. cbn. rewrite app_nil_r. repeat split. intros c [].
  - cbn [fold_left map filter]. unfold surface_step at 2.
    rewrite running_offset.
    destruct (sf_material sf0) as [lk|] eqn:Hm.
    + destruct (link_is_invalid lk) eqn:Hl; cbn [negb].
      * destruct (IH (N.min off (sf_index sf0)) calls)
          as (new & -> & Hlen & Hnew).
        exists new. split; [reflexivity|]. split; [exact Hlen|].
        intros c Hc. destruct (Hnew c Hc) as (pre & sf & post & -> & Hr).
        exists (sf0 :: pre), sf, post. split; [reflexivity | exact Hr].
      * destruct (IH (N.min off (sf_index sf0))
                     (record_call (material_store det) lk (vol_index vol)
                                  (dindex_sub (sf_index sf0)
                                              (N.min off (sf_index sf0)))
                                  (sf_index sf0) calls))
          as (new & -> & Hlen & Hnew).
        eexists (_ :: new).
        split; [unfold record_call; now rewrite <- app_assoc|].
        split; [cbn [List.length]; now rewrite Hlen|].
        intros c [<-|Hc].
        -- exists [], sf0, rest. cbn. repeat split; assumption.
        -- destruct (Hnew c Hc) as (pre & sf & post & -> & Hr).
           exists (sf0 :: pre), sf, post. split; [reflexivity | exact Hr].
    + destruct (IH (N.min off (sf_index sf0)) calls)
        as (new & -> & Hlen & Hnew).
      exists new. split; [reflexivity|]. split; [exact Hlen|].
      intros c Hc. destruct (Hnew c Hc) as (pre & sf & post & -> & Hr).
      exists (sf0 :: pre), sf, post. split; [reflexivity | exact Hr].
Qed.

Lemma volumes_fold (vols : list volume_desc) :
  forall calls : list grid_call,
  exists new,
    fold_left (volume_step vol_surfaces link_is_invalid record_call det)
              vols calls
    = calls ++ new
    /\ List.length new
       = List.length
           (filter (fun sf => match sf_material sf with
                              | Some lk => negb (link_is_invalid lk)
                              | None => false
                              end)
                   (flat_map (vol_surfaces det) vols))
    /\ forall c, In c new ->
       exists vol pre sf post,
         In vol vols
         /\ vol_surfaces det vol = pre ++ sf :: post
         /\ sf_material sf = Some (call_link c)
         /\ link_is_invalid (call_link c) = false
         /\ c = mk_call (call_link c) (vol_index vol)
                        (dindex_sub
                           (sf_index sf)
                           (fold_left N.min (map sf_index (pre ++ [sf]))
                                      dindex_invalid))
                        (sf_index sf).
Proof.
  induction vols as [|v rest IH]; intros calls.
  - exists []. cbn. rewrite app_nil_r. repeat split. intros c [].
  - cbn [fold_left flat_map]. unfold volume_step at 2.
    destruct (surfaces_fold v (vol_surfaces det v) dindex_invalid calls)
      as (new1 & -> & Hlen1 & Hnew1). cbn [snd].
    destruct (IH (calls ++ new1)) as (new2 & -> & Hlen2 & Hnew2).
    exists (new1 ++ new2). split; [now rewrite app_assoc|].
    split; [now rewrite filter_app, !length_app, Hlen1, Hlen2|].
    intros c Hc. apply in_app_iff in Hc as [Hc|Hc].
    + destruct (Hnew1 c Hc) as (pre & sf & post & Hr).
      exists v, pre, sf, post. split; [now left | exact Hr].
    + destruct (Hnew2 c Hc) as (vol & pre & sf & post & Hin & Hr).
      exists vol, pre, sf, post. split; [now right | exact Hr].
Qed.

End writer_facts.

(** X20. Every grid that the writer emits belongs to a surface with a
    valid material link, and, surface indices fitting 32 bits, its local
    surface index is the index of the surface less the smallest index seen
    so far among the surfaces of the volume (the subtraction never wraps);
    if the first surface of the volume has the smallest index, that is the
    index relative to the first surface. *)
Theorem local_surface_index_is_relative_to_running_minimum
        (vol_surfaces : detector -> volume_desc -> list surface_desc)
        (link_is_invalid : typed_index -> bool)
        (det : detector) (c : grid_call) :
  (forall vol sf, In vol (volumes det) -> In sf (vol_surfaces det vol) ->
                  (sf_index sf < 4294967296)%N) ->
  In c (to_payload_calls vol_surfaces link_is_invalid det) ->
  exists vol pre sf post,
    In vol (volumes det)
    /\ vol_surfaces det vol = pre ++ sf :: post
    /\ sf_material sf = Some (call_link c)
    /\ link_is_invalid (call_link c) = false
    /\ call_volume c = vol_index vol
    /\ call_surface c = sf_index sf
    /\ (call_local_index c
        + fold_left N.min (map sf_index (pre ++ [sf])) dindex_invalid
        = sf_index sf)%N
    /\ (forall first rest,
           vol_surfaces det vol = first :: rest ->
           (forall x, In x rest -> (sf_index first <= sf_index x)%N) ->
           (call_local_index c + sf_index first = sf_index sf)%N).
Proof.
  intros Hfit Hc. unfold to_payload_calls, to_payload in Hc.
  destruct (volumes_fold vol_surfaces link_is_invalid det (volumes det) [])
    as (new & E & _ & Hnew).
  rewrite E in Hc. cbn [app] in Hc.
  destruct (Hnew c Hc) as (vol & pre & sf & post & Hvol & Hl & Hm & Hi & Ec).
  exists vol, pre, sf, post.
  assert (Hsf : In sf (vol_surfaces det vol))
    by (rewrite Hl; apply in_or_app; right; now left).
  pose proof (Hfit vol sf Hvol Hsf) as Hlt.
  set (m := fold_left N.min (map sf_index (pre ++ [sf])) dindex_invalid)
    in *.
  assert (Hle : (m <= sf_index sf)%N).
  { apply (proj2 (fold_min_le (map sf_index (pre ++ [sf])) dindex_invalid)).
    apply in_map, in_or_app. right. now left. }
  assert (Hsub : (dindex_sub (sf_index sf) m + m = sf_index sf)%N).
  { unfold dindex_sub.
    replace (sf_index sf + 4294967296 - m)%N
      with (sf_index sf - m + 1 * 4294967296)%N by lia.
    rewrite N.Div0.mod_add, N.mod_small by lia. lia. }
  rewrite Ec. cbn [call_link call_volume call_local_index call_surface].
  repeat split; try assumption.
  intros first rest Hfirst Hmin.
  assert (Em : m = sf_index first); [|rewrite <- Em; exact Hsub].
  unfold m.
  assert (Hf32 : (sf_index first < 4294967296)%N).
  { apply (Hfit vol first Hvol). rewrite Hfirst. now left. }
  rewrite Hfirst in Hl.
  destruct pre as [|p pre'].
  - cbn in Hl. injection Hl as <- _. cbn. unfold dindex_invalid. lia.
  - cbn in Hl. injection Hl as <- Hrest. cbn [app map fold_left].
    replace (N.min dindex_invalid (sf_index first)) with (sf_index first)
      by (unfold dindex_invalid; lia).
    apply fold_min_start. intros x Hx.
    apply in_map_iff in Hx as (y & <- & Hy). apply Hmin.
    rewrite Hrest. apply in_app_iff in Hy as [Hy|[<-|[]]].
    + apply in_or_app. now left.
    + apply in_or_app. right. now left.
Qed.

Lemma local_surface_index_is_relative_to_running_minimum_witness :
  exists vol pre sf post,
    In vol (volumes writer_detector)
    /\ writer_surfaces writer_detector vol = pre ++ sf :: post
    /\ sf_material sf = Some (mk_link 1%N 1%N)
    /\ false = false
    /\ 0%N = vol_index vol
    /\ 7%N = sf_index sf
    /\ (2 + fold_left N.min (map sf_index (pre ++ [sf])) dindex_invalid
        = sf_index sf)%N
    /\ (forall first rest,
           writer_surfaces writer_detector vol = first :: rest ->
           (forall x, In x rest -> (sf_index first <= sf_index x)%N) ->
           (2 + sf_index first = sf_index sf)%N).
Proof.
  apply (local_surface_index_is_relative_to_running_minimum
           writer_surfaces (fun _ => false) writer_detector
           (mk_call (mk_link 1%N 1%N) 0%N 2%N 7%N)).
  - intros vol sf _ Hsf. cbn in Hsf.
    destruct Hsf as [<-|[<-|[<-|[]]]]; reflexivity.
  - right. left. reflexivity.
Defined.

Section writer_replay.
Variable payload_type : Type.
Variable empty_payload : payload_type.
Variable vol_surfaces : detector -> volume_desc -> list surface_desc.
Variable link_is_invalid : typed_index -> bool.
Variable grid_to_payload :
  list material_coll -> typed_index -> dindex -> dindex -> dindex ->
  payload_type -> payload_type.
Variable det : detector.

(** The loop over the surfaces of a volume, run on a payload and run on
    the record of the calls: the offsets agree, and the payload is the
    record made again. *)
Lemma surfaces_replay (vol : volume_desc) (l : list surface_desc) :
  forall (off : dindex) (data : payload_type) (calls : list grid_call),
    data = fold_left (replay grid_to_payload (material_store det))
                     calls empty_payload ->
    fst (fold_left (surface_step link_is_invalid grid_to_payload det vol) l
                   (off, data))
    = fst (fold_left (surface_step link_is_invalid record_call det vol) l
                     (off, calls))
    /\ snd (fold_left (surface_step link_is_invalid grid_to_payload det vol)
                      l (off, data))
       = fold_left (replay grid_to_payload (material_store det))
                   (snd (fold_left
                           (surface_step link_is_invalid record_call det vol)
                           l (off, calls)))
                   empty_payload.
Proof.
  induction l as [|sf rest IH]; intros off data calls Hd; cbn [fold_left].
  - split; [reflexivity | exact Hd].
  - unfold surface_step at 2 4 6 8.
    destruct (sf_material sf) as [lk|]; [|now apply IH].
    destruct (link_is_invalid lk); [now apply IH|].
    apply IH. unfold record_call. rewrite fold_left_app, <- Hd. reflexivity.
Qed.

Lemma volumes_replay (vols : list volume_desc) :
  forall (data : payload_type) (calls : list grid_call),
    data = fold_left (replay grid_to_payload (material_store det))
                     calls empty_payload ->
    fold_left (volume_step vol_surfaces link_is_invalid grid_to_payload det)
              vols data
    = fold_left (replay grid_to_payload (material_store det))
                (fold_left
                   (volume_step vol_surfaces link_is_invalid record_call det)
                   vols calls)
                empty_payload.
Proof.
  induction vols as [|v rest IH]; intros data calls Hd; cbn [fold_left].
  - exact Hd.
  - apply IH. unfold volume_step.
    apply (proj2 (surfaces_replay v (vol_surfaces det v) dindex_invalid
                                  data calls Hd)).
Qed.

(** The surfaces of the recorded calls are the surfaces with a valid
    material link, in their order. *)
Lemma surfaces_order (vol : volume_desc) (l : list surface_desc) :
  forall (off : dindex) (calls : list grid_call),
    map call_surface
        (snd (fold_left (surface_step link_is_invalid record_call det vol) l
                        (off, calls)))
    = map call_surface calls
      ++ map sf_index
             (filter (fun sf => match sf_material sf with
                                | Some lk => negb (link_is_invalid lk)
                                | None => false
                                end) l).
Proof.
  induction l as [|sf rest IH]; intros off calls; cbn [fold_left filter].
  - cbn. now rewrite app_nil_r.
  - unfold surface_step at 2.
    destruct (sf_material sf) as [lk|]; [|apply IH].
    destruct (link_is_invalid lk); cbn [negb]; [apply IH|].
    rewrite IH. unfold record_call.
    rewrite map_app, <- app_assoc. reflexivity.
Qed.

Lemma volumes_order (vols : list volume_desc) :
  forall calls : list grid_call,
    map call_surface
        (fold_left (volume_step vol_surfaces link_is_invalid record_call det)
                   vols calls)
    = map call_surface calls
      ++ map sf_index
             (filter (fun sf => match sf_material sf with
                                | Some lk => negb (link_is_invalid lk)
                                | None => false
                                end)
                     (flat_map (vol_surfaces det) vols)).
Proof.
  induction vols as [|v rest IH]; intros calls; cbn [fold_left flat_map].
  - cbn. now rewrite app_nil_r.
  - rewrite IH. unfold volume_step at 1. rewrite surfaces_order.
    rewrite filter_app, map_app, <- app_assoc. reflexivity.
Qed.

End writer_replay.

(** X21. Whatever [grid_writer::to_payload] does with a call, the writer
    calls it once for every surface whose material link is neither [e_none]
    nor invalid, in the order of the volumes and of their surfaces, and for
    no other surface: the payload it returns is the default payload passed
    through the recorded calls one after the other, and the surfaces of
    these calls are the surfaces with such a link, one call each and in
    their order. *)
Theorem one_call_per_surface_with_material
        (payload_type : Type) (empty_payload : payload_type)
        (vol_surfaces : detector -> volume_desc -> list surface_desc)
        (link_is_invalid : typed_index -> bool)
        (grid_to_payload :
           list material_coll -> typed_index -> dindex -> dindex -> dindex ->
           payload_type -> payload_type)
        (det : detector) :
  to_payload empty_payload vol_surfaces link_is_invalid grid_to_payload det
  = fold_left (replay grid_to_payload (material_store det))
              (to_payload_calls vol_surfaces link_is_invalid det)
              empty_payload
  /\ map call_surface (to_payload_calls vol_surfaces link_is_invalid det)
     = map sf_index
           (filter (fun sf => match sf_material sf with
                              | Some lk => negb (link_is_invalid lk)
                              | None => false
                              end)
                   (flat_map (vol_surfaces det) (volumes det)))
  /\ List.length (to_payload_calls vol_surfaces link_is_invalid det)
     = List.length
         (filter (fun sf => match sf_material sf with
                            | Some lk => negb (link_is_invalid lk)
                            | None => false
                            end)
                 (flat_map (vol_surfaces det) (volumes det))).
Proof.
  assert (Horder :
            map call_surface (to_payload_calls vol_surfaces link_is_invalid det)
            = map sf_index
                  (filter (fun sf => match sf_material sf with
                                     | Some lk => negb (link_is_invalid lk)
                                     | None => false
                                     end)
                          (flat_map (vol_surfaces det) (volumes det)))).
  { unfold to_payload_calls, to_payload.
    now rewrite (volumes_order vol_surfaces link_is_invalid det). }
  split; [|split].
  - unfold to_payload_calls, to_payload.
    now apply volumes_replay.
  - exact Horder.
  - apply (f_equal (@List.length _)) in Horder.
    now rewrite !length_map in Horder.
Qed.

(** ** The intersector in the scalar type of the build

    What follows is proved of [any_scalar.helix_cylinder_intersector]: for
    every scalar type with its operations where it is about the control
    flow, and by evaluation in [binary64] where it is about one input. *)

Import any_scalar.

Section any_scalar_facts.
Variable A : arithmetic.
Variables (h : helix A) (m : mask A) (trf : transform3 A).
Variable mask_tolerance : scalar_type A.

Lemma step_some (st st' : newton_state A) :
  newton_step h m trf st = Some st' ->
  s_eq A (denom_at h trf (s st)) (lit_0 A) = false
  /\ st' = mk_state
             (s_sub A (s st)
                    (s_div A (f_at h m trf (s st)) (denom_at h trf (s st))))
             (s st) (S (n_tries st)).
Proof.
  unfold newton_step. cbv zeta.
  destruct (s_eq A (denom_at h trf (s st)) (lit_0 A)); [discriminate|].
  intros H; injection H as <-. split; reflexivity.
Qed.

Lemma step_none_iff (st : newton_state A) :
  newton_step h m trf st = None
  <-> s_eq A (denom_at h trf (s st)) (lit_0 A) = true.
Proof.
  unfold newton_step. cbv zeta.
  destruct (s_eq A (denom_at h trf (s st)) (lit_0 A)); split; congruence.
Qed.

Lemma cond_tries (st : newton_state A) :
  loop_cond st = true -> (n_tries st < max_n_tries)%nat.
Proof.
  unfold loop_cond. intros H.
  apply andb_true_iff in H as [_ H]. now apply Nat.ltb_lt in H.
Qed.

(** With fewer than [max_n_tries] passes made, the loop stops only on a
    step within the tolerance. *)
Lemma cond_false_step (st : newton_state A) :
  loop_cond st = false -> (n_tries st < max_n_tries)%nat ->
  s_gt A (s_abs A (s_sub A (s st) (s_prev st))) (tol A) = false.
Proof.
  unfold loop_cond. intros Hc Hn. apply Nat.ltb_lt in Hn.
  rewrite Hn, andb_true_r in Hc. exact Hc.
Qed.

(** The loop never runs out of fuel when given [max_n_tries] passes. *)
Lemma loop_total (fuel : nat) :
  forall st, (max_n_tries <= n_tries st + fuel)%nat ->
             exists e, newton_loop h m trf fuel st = Some e.
Proof.
  induction fuel as [|fuel IH]; intros st Hfuel; cbn [newton_loop].
  - destruct (loop_cond st) eqn:Hc; [|eauto].
    apply cond_tries in Hc. lia.
  - destruct (loop_cond st) eqn:Hc; [|eauto].
    destruct (newton_step h m trf st) as [st'|] eqn:Hs; [|eauto].
    apply IH. apply step_some in Hs as [_ ->]. cbn. lia.
Qed.

(** Passes already made can be skipped. *)
Lemma loop_from_reached (a b : newton_state A) :
  loop_reaches h m trf a b ->
  forall fuel, (max_n_tries <= n_tries a + fuel)%nat ->
  exists fuel', (max_n_tries <= n_tries b + fuel')%nat
                /\ newton_loop h m trf fuel a = newton_loop h m trf fuel' b.
Proof.
  induction 1 as [|b c Hab IH Hc Hs]; intros fuel Hfuel.
  - exists fuel. split; [assumption | reflexivity].
  - destruct (IH fuel Hfuel) as (fuel' & Hf' & ->).
    pose proof (cond_tries _ Hc) as Hlt.
    destruct fuel' as [|fuel']; [lia|].
    exists fuel'. split.
    + apply step_some in Hs as [_ ->]. cbn. lia.
    + cbn [newton_loop]. rewrite Hc, Hs. reflexivity.
Qed.

Lemma reaches_after_first_pass (a a' b : newton_state A) :
  loop_cond a = true -> newton_step h m trf a = Some a' ->
  loop_reaches h m trf a' b -> loop_reaches h m trf a b.
Proof.
  intros Hc Hs H. induction H as [|x y Hxy IH Hcx Hsx].
  - econstructor; [constructor | exact Hc | exact Hs].
  - econstructor; [exact IH | exact Hcx | exact Hsx].
Qed.

Lemma iterate_reaches (k : nat) :
  forall a b, newton_iterate h m trf k a = Some b ->
              loop_reaches h m trf a b.
Proof.
  induction k as [|k IH]; intros a b; cbn [newton_iterate].
  - intros H; injection H as <-. constructor.
  - destruct (loop_cond a) eqn:Hc; [|discriminate].
    destruct (newton_step h m trf a) as [a'|] eqn:Hs; [|discriminate].
    intros H. apply IH in H.
    eapply reaches_after_first_pass; eassumption.
Qed.

Lemma iterate_tries (k : nat) :
  forall a b, newton_iterate h m trf k a = Some b ->
              n_tries b = (n_tries a + k)%nat.
Proof.
  induction k as [|k IH]; intros a b; cbn [newton_iterate].
  - intros H; injection H as <-. lia.
  - destruct (loop_cond a); [|discriminate].
    destruct (newton_step h m trf a) as [a'|] eqn:Hs; [|discriminate].
    intros H. apply IH in H. apply step_some in Hs as [_ ->].
    cbn [n_tries] in H. lia.
Qed.

Lemma loop_done_reached (fuel : nat) :
  forall a st, newton_loop h m trf fuel a = Some (loop_done st) ->
               loop_reaches h m trf a st /\ loop_cond st = false.
Proof.
  induction fuel as [|fuel IH]; intros a st; cbn [newton_loop];
    destruct (loop_cond a) eqn:Hc; try discriminate.
  - intros H; injection H as <-. split; [constructor | exact Hc].
  - destruct (newton_step h m trf a) as [a'|] eqn:Hs; [|discriminate].
    intros H. apply IH in H as [Hr Hst]. split; [|exact Hst].
    eapply reaches_after_first_pass; eassumption.
  - intros H; injection H as <-. split; [constructor | exact Hc].
Qed.

Lemma reached_tries (a b : newton_state A) :
  loop_reaches h m trf a b ->
  (n_tries a <= max_n_tries)%nat ->
  (n_tries a <= n_tries b <= max_n_tries)%nat.
Proof.
  induction 1 as [|b c Hab IH Hc Hs]; intros Ha.
  - lia.
  - specialize (IH Ha). apply cond_tries in Hc.
    apply step_some in Hs as [_ ->]. cbn [n_tries]. lia.
Qed.

(** The output is one of two: the untouched array, or the array with
    slot 0 built from the last [s]. *)
Lemma outputs :
  helix_cylinder_intersector h m trf mask_tolerance
  = Some (default_intersection, default_intersection)
  \/ exists st,
      newton_loop h m trf max_n_tries (initial_state h m)
      = Some (loop_done st)
      /\ n_tries st <> max_n_tries
      /\ helix_cylinder_intersector h m trf mask_tolerance
         = Some (build_intersection h m trf mask_tolerance (s st),
                 default_intersection).
Proof.
  unfold helix_cylinder_intersector.
  destruct (loop_total max_n_tries (initial_state h m))
    as [e He]; [cbn; lia|].
  rewrite He. cbn [option_map]. destruct e as [|st]; cbn [finish].
  - left; reflexivity.
  - destruct (Nat.eqb_spec (n_tries st) max_n_tries) as [E|E].
    + left; reflexivity.
    + right. exists st. repeat split; assumption.
Qed.

(** A zero denominator at the head of any pass ends the call with the
    untouched array. *)
Lemma zero_denominator_ends_the_call (st : newton_state A) :
  loop_reaches h m trf (initial_state h m) st ->
  loop_cond st = true ->
  s_eq A (denom_at h trf (s st)) (lit_0 A) = true ->
  helix_cylinder_intersector h m trf mask_tolerance
  = Some (default_intersection, default_intersection).
Proof.
  intros Hr Hc Hd.
  destruct (loop_from_reached _ _ Hr max_n_tries)
    as (fuel' & Hf & E); [cbn; lia|].
  unfold helix_cylinder_intersector. rewrite E.
  pose proof (cond_tries _ Hc).
  destruct fuel' as [|fuel']; [lia|].
  cbn [newton_loop]. rewrite Hc.
  apply step_none_iff in Hd. rewrite Hd. reflexivity.
Qed.

(** Whatever the scalar type and the inputs, a call whose loop makes its
    100th pass returns the untouched array: the test after the loop does
    not look at whether that pass brought the step within the tolerance. *)
Lemma last_pass_gives_nothing (st : newton_state A) :
  newton_iterate h m trf max_n_tries (initial_state h m) = Some st ->
  helix_cylinder_intersector h m trf mask_tolerance
  = Some (default_intersection, default_intersection).
Proof.
  intros Hit.
  pose proof (iterate_tries _ _ _ Hit) as Hn.
  cbn [initial_state n_tries] in Hn.
  apply iterate_reaches in Hit.
  destruct (loop_from_reached _ _ Hit max_n_tries)
    as (fuel' & _ & E); [cbn; lia|].
  unfold helix_cylinder_intersector. rewrite E.
  assert (Hc : loop_cond st = false).
  { unfold loop_cond. rewrite Hn. cbn. apply andb_false_r. }
  destruct fuel'; cbn [newton_loop]; rewrite Hc; cbn [option_map finish];
    rewrite Hn; reflexivity.
Qed.

End any_scalar_facts.

(** C1, at an input on which the code departs from it, evaluated as the
    code runs on [double].  The trajectory starts at the origin with the
    direction [(2^-48, 0, 1)] and meets the cylinder of radius [2^-40] about
    the z axis at the path length 256.  The first pass takes the seed
    [r * perp(dir) = 2^-88] to about [2^103], and every later pass halves the
    distance to the root until the iteration homes in on it.  After each of
    the passes 1 to 99 the step is above the tolerance; the 100th pass
    brings it within the tolerance, with [s] within [1e-11] of 256, so the
    loop stops because the iteration has converged; and the intersector
    returns the untouched array instead of the intersection at that [s]. *)
Theorem convergence_on_last_try_is_dropped :
  forallb (fun k =>
             match newton_iterate shallow_line thin_cylinder
                                  identity_placement k
                                  (initial_state shallow_line thin_cylinder)
             with
             | Some st =>
                 s_gt binary64
                      (s_abs binary64 (s_sub binary64 (s st) (s_prev st)))
                      (tol binary64)
             | None => false
             end) (seq 0 max_n_tries) = true
  /\ (exists st,
         newton_iterate shallow_line thin_cylinder identity_placement
                        max_n_tries
                        (initial_state shallow_line thin_cylinder) = Some st
         /\ n_tries st = max_n_tries
         /\ s_gt binary64
                 (s_abs binary64 (s_sub binary64 (s st) (s_prev st)))
                 (tol binary64) = false
         /\ PrimFloat.ltb (PrimFloat.abs (PrimFloat.sub (s st) 256%float))
                          0x1p-37%float = true
         /\ newton_loop shallow_line thin_cylinder identity_placement
                        max_n_tries
                        (initial_state shallow_line thin_cylinder)
            = Some (loop_done st)
         /\ build_intersection shallow_line thin_cylinder
                               identity_placement 0%float (s st)
            <> default_intersection)
  /\ helix_cylinder_intersector shallow_line thin_cylinder
                                identity_placement 0%float
     = Some (default_intersection, default_intersection).
Proof.
  split; [vm_compute; reflexivity|]. split.
  - eexists. split; [vm_compute; reflexivity|].
    split; [reflexivity|]. split; [vm_compute; reflexivity|].
    split; [vm_compute; reflexivity|].
    split; [vm_compute; reflexivity | discriminate].
  - vm_compute; reflexivity.
Qed.

(** *** Products with zero on [double] *)

Lemma finite_cases (x : float) :
  PrimFloat.is_finite x = true ->
  (exists b, Prim2SF x = S754_zero b)
  \/ (exists b m e, Prim2SF x = S754_finite b m e).
Proof.
  unfold PrimFloat.is_finite, PrimFloat.is_nan, PrimFloat.is_infinity.
  rewrite !FloatAxioms.eqb_spec, FloatAxioms.abs_spec.
  destruct (Prim2SF x) as [b|b| |b m e]; cbn; try discriminate; eauto.
  destruct b; discriminate.
Qed.

Lemma zero_of_eqb (x : float) :
  PrimFloat.eqb x 0%float = true -> exists b, Prim2SF x = S754_zero b.
Proof.
  rewrite FloatAxioms.eqb_spec.
  destruct (Prim2SF x) as [b|b| |b m e]; cbn; try discriminate; eauto;
    destruct b; discriminate.
Qed.

Lemma finite_times_zero (x z : float) (b : bool) :
  PrimFloat.is_finite x = true -> Prim2SF z = S754_zero b ->
  exists c, Prim2SF (PrimFloat.mul x z) = S754_zero c.
Proof.
  intros H Hz. rewrite FloatAxioms.mul_spec, Hz.
  destruct (finite_cases x H) as [[a ->]|(a & m & e & ->)];
    eexists; reflexivity.
Qed.

Lemma zero_plus_zero (x y : float) (a b : bool) :
  Prim2SF x = S754_zero a -> Prim2SF y = S754_zero b ->
  exists c, Prim2SF (PrimFloat.add x y) = S754_zero c.
Proof.
  intros Hx Hy. rewrite FloatAxioms.add_spec, Hx, Hy.
  destruct a, b; eexists; reflexivity.
Qed.

Lemma twice_zero_is_zero (x : float) (a : bool) :
  Prim2SF x = S754_zero a ->
  PrimFloat.eqb (PrimFloat.mul 2%float x) 0%float = true.
Proof.
  intros Hx. rewrite FloatAxioms.eqb_spec, FloatAxioms.mul_spec, Hx.
  destruct a; reflexivity.
Qed.

(** On a [double], the denominator is zero where the direction has a zero
    cross product with the axis and [crp], the cross product of the position
    with the axis, has no component that is a NaN or an infinity. *)
Lemma parallel_denominator_binary64
      (h : helix binary64) (trf : transform3 binary64) (x : float) :
  is_zero_vector (cross (dir h x) (sz trf)) = true ->
  is_finite_vector (crp_at h trf x) = true ->
  s_eq binary64 (denom_at h trf x) (lit_0 binary64) = true.
Proof.
  unfold is_zero_vector, is_finite_vector, denom_at, dot.
  destruct (cross (dir h x) (sz trf)) as [z0 z1 z2].
  destruct (crp_at h trf x) as [c0 c1 c2]. cbn [p3_0 p3_1 p3_2].
  intros Hz Hf.
  apply andb_true_iff in Hz as [Hz Hz2].
  apply andb_true_iff in Hz as [Hz0 Hz1].
  apply andb_true_iff in Hf as [Hf Hf2].
  apply andb_true_iff in Hf as [Hf0 Hf1].
  apply zero_of_eqb in Hz0 as [b0 Hz0].
  apply zero_of_eqb in Hz1 as [b1 Hz1].
  apply zero_of_eqb in Hz2 as [b2 Hz2].
  destruct (finite_times_zero c0 z0 b0 Hf0 Hz0) as [a0 H0].
  destruct (finite_times_zero c1 z1 b1 Hf1 Hz1) as [a1 H1].
  destruct (finite_times_zero c2 z2 b2 Hf2 Hz2) as [a2 H2].
  destruct (zero_plus_zero _ _ a0 a1 H0 H1) as [a01 H01].
  destruct (zero_plus_zero _ _ a01 a2 H01 H2) as [a012 H012].
  exact (twice_zero_is_zero _ a012 H012).
Qed.




(** X4. For every scalar type, a populated slot 0 is always built from a
    state that the loop reached with the test [std::abs(s - s_prev) > tol]
    false, after fewer than [max_n_tries] passes. *)
Theorem populated_slot_comes_from_convergence
        (A : arithmetic) (h : helix A) (m : mask A) (trf : transform3 A)
        (mask_tolerance : scalar_type A) (out : output_type A) :
  helix_cylinder_intersector h m trf mask_tolerance = Some out ->
  fst out <> default_intersection ->
  exists st,
    loop_reaches h m trf (initial_state h m) st
    /\ s_gt A (s_abs A (s_sub A (s st) (s_prev st))) (tol A) = false
    /\ (n_tries st < max_n_tries)%nat
    /\ out = (build_intersection h m trf mask_tolerance (s st),
              default_intersection).
Proof.
  intros Hout Hpop.
  destruct (outputs A h m trf mask_tolerance)
    as [E | (st & Hloop & Hn & E)]; rewrite E in Hout; injection Hout as <-.
  - contradiction Hpop. reflexivity.
  - apply loop_done_reached in Hloop as [Hr Hc].
    pose proof (reached_tries A h m trf _ _ Hr) as Hle.
    cbn [initial_state n_tries] in Hle.
    assert (Hs : (n_tries st < max_n_tries)%nat) by (cbn in Hle; lia).
    exists st. split; [exact Hr|].
    split; [now apply cond_false_step|]. split; [exact Hs | reflexivity].
Qed.

Lemma populated_slot_comes_from_convergence_witness :
  exists out,
    helix_cylinder_intersector
      (line_along_x 1%float) (cylinder_mask (A := binary64) 0x1p54%float 7)
      identity_placement 0%float = Some out
    /\ exists st,
        loop_reaches (line_along_x 1%float)
                     (cylinder_mask (A := binary64) 0x1p54%float 7)
                     identity_placement
                     (initial_state (line_along_x 1%float)
                                    (cylinder_mask (A := binary64)
                                                   0x1p54%float 7)) st
        /\ s_gt binary64
                (s_abs binary64 (s_sub binary64 (s st) (s_prev st)))
                (tol binary64) = false
        /\ (n_tries st < max_n_tries)%nat
        /\ out = (build_intersection
                    (line_along_x 1%float)
                    (cylinder_mask (A := binary64) 0x1p54%float 7)
                    identity_placement 0%float (s st),
                  default_intersection).
Proof.
  assert (Hout : exists out,
             helix_cylinder_intersector
               (line_along_x 1%float)
               (cylinder_mask (A := binary64) 0x1p54%float 7)
               identity_placement 0%float = Some out
             /\ fst out <> default_intersection).
  { eexists. split; [vm_compute; reflexivity | discriminate]. }
  destruct Hout as (out & Hout & Hpop).
  exists out. split; [exact Hout|].
  exact (populated_slot_comes_from_convergence
           binary64 (line_along_x 1%float)
           (cylinder_mask (A := binary64) 0x1p54%float 7)
           identity_placement 0%float out Hout Hpop).
Defined.

(** X7. For every scalar type: if the denominator is not zero at the seed
    and the update leaves the seed where it is, as it does when the seed
    lies on the cylinder, then slot 0 holds the intersection built at the
    seed; the loop has made one pass if it was entered, and none if the seed
    [s] and [s - 0.1] are within the tolerance of each other. *)
Theorem seed_on_the_cylinder_is_returned
        (A : arithmetic) (h : helix A) (m : mask A) (trf : transform3 A)
        (mask_tolerance : scalar_type A) :
  s_eq A (denom_at h trf (s (initial_state h m))) (lit_0 A) = false ->
  s_sub A (s (initial_state h m))
        (s_div A (f_at h m trf (s (initial_state h m)))
               (denom_at h trf (s (initial_state h m))))
  = s (initial_state h m) ->
  s_gt A (s_abs A (s_sub A (s (initial_state h m)) (s (initial_state h m))))
       (tol A) = false ->
  exists st,
    newton_loop h m trf max_n_tries (initial_state h m) = Some (loop_done st)
    /\ s st = s (initial_state h m)
    /\ n_tries st = (if loop_cond (initial_state h m) then 1 else 0)%nat
    /\ helix_cylinder_intersector h m trf mask_tolerance
       = Some (build_intersection h m trf mask_tolerance
                                  (s (initial_state h m)),
               default_intersection).
Proof.
  intros Hd Hfix Hstop.
  unfold helix_cylinder_intersector.
  remember (initial_state h m) as st0 eqn:Est0.
  assert (Hn : n_tries st0 = 0%nat) by (subst st0; reflexivity).
  destruct (loop_cond st0) eqn:Hc.
  - exists (mk_state (s st0) (s st0) 1).
    assert (Hstep : newton_step h m trf st0
                    = Some (mk_state (s st0) (s st0) 1)).
    { unfold newton_step. cbv zeta. rewrite Hd, Hfix, Hn. reflexivity. }
    assert (Hc1 : loop_cond (mk_state (s st0) (s st0) 1) = false).
    { unfold loop_cond. cbn [s s_prev n_tries]. rewrite Hstop. reflexivity. }
    assert (Hloop : newton_loop h m trf max_n_tries st0
                    = Some (loop_done (mk_state (s st0) (s st0) 1))).
    { change max_n_tries with (S 99). cbn [newton_loop].
      rewrite Hc, Hstep. cbn [newton_loop]. rewrite Hc1. reflexivity. }
    rewrite Hloop. repeat split; reflexivity.
  - exists st0.
    assert (Hloop : newton_loop h m trf max_n_tries st0
                    = Some (loop_done st0)).
    { change max_n_tries with (S 99). cbn [newton_loop].
      rewrite Hc. reflexivity. }
    rewrite Hloop. cbn [option_map finish]. rewrite Hn.
    repeat split; reflexivity.
Qed.

Lemma seed_on_the_cylinder_is_returned_witness :
  exists st,
    newton_loop axis_crossing_line (cylinder_mask (A := binary64) 3%float 7)
                identity_placement max_n_tries
                (initial_state axis_crossing_line
                               (cylinder_mask (A := binary64) 3%float 7))
    = Some (loop_done st)
    /\ s st = s (initial_state axis_crossing_line
                               (cylinder_mask (A := binary64) 3%float 7))
    /\ n_tries st
       = (if loop_cond (initial_state
                          axis_crossing_line
                          (cylinder_mask (A := binary64) 3%float 7))
          then 1 else 0)%nat
    /\ helix_cylinder_intersector
         axis_crossing_line (cylinder_mask (A := binary64) 3%float 7)
         identity_placement 0%float
       = Some (build_intersection
                 axis_crossing_line (cylinder_mask (A := binary64) 3%float 7)
                 identity_placement 0%float
                 (s (initial_state axis_crossing_line
                                   (cylinder_mask (A := binary64) 3%float 7))),
               default_intersection).
Proof.
  apply (seed_on_the_cylinder_is_returned
           binary64 axis_crossing_line
           (cylinder_mask (A := binary64) 3%float 7)
           identity_placement 0%float);
    vm_compute; reflexivity.
Defined.

(** The loop of the rational model is the loop above at exact arithmetic:
    on the same trajectory, radius and placement the two start in the same
    state and leave the loop the same way.  Only the radius of the mask is
    read by the loop. *)
Lemma rational_loop_agrees
      (sqrt : Qc -> Qc) (h : helix_cylinder.helix) (m : helix_cylinder.mask)
      (trf : algebra.transform3) (m' : mask (rational sqrt)) :
  mask_values m' 0 = helix_cylinder.mask_values m 0 ->
  initial_state (of_helix sqrt h) m'
  = of_state sqrt (helix_cylinder.initial_state sqrt h m)
  /\ forall fuel st,
      newton_loop (of_helix sqrt h) m' (of_transform3 sqrt trf) fuel
                  (of_state sqrt st)
      = option_map (of_exit sqrt) (helix_cylinder.newton_loop h m trf fuel st).
Proof.
  intros Hr. split.
  - unfold initial_state, helix_cylinder.initial_state, of_state, r,
      helix_cylinder.r. rewrite Hr. reflexivity.
  - induction fuel as [|fuel IH]; intros st;
      cbn [newton_loop helix_cylinder.newton_loop].
    + change (loop_cond (of_state sqrt st))
        with (helix_cylinder.loop_cond st).
      destruct (helix_cylinder.loop_cond st); reflexivity.
    + change (loop_cond (of_state sqrt st))
        with (helix_cylinder.loop_cond st).
      destruct (helix_cylinder.loop_cond st); [|reflexivity].
      assert (Hs : newton_step (of_helix sqrt h) m' (of_transform3 sqrt trf)
                               (of_state sqrt st)
                   = option_map (of_state sqrt)
                                (helix_cylinder.newton_step h m trf st)).
      { unfold newton_step, helix_cylinder.newton_step, f_at, r,
          helix_cylinder.r. rewrite Hr. cbv zeta.
        change (denom_at (of_helix sqrt h) (of_transform3 sqrt trf)
                         (s (of_state sqrt st)))
          with (helix_cylinder.denom_at h trf (helix_cylinder.s st)).
        change (s_eq (rational sqrt)) with algebra.eqb.
        change (lit_0 (rational sqrt)) with (lit 0).
        destruct (algebra.eqb (helix_cylinder.denom_at h trf
                                                       (helix_cylinder.s st))
                              (lit 0)); reflexivity. }
      rewrite Hs.
      destruct (helix_cylinder.newton_step h m trf st) as [st'|];
        cbn [option_map]; [apply IH | reflexivity].
Qed.

(** So the two return the untouched array on the same inputs. *)
Lemma rational_absent_agrees
      (sqrt : Qc -> Qc) (h : helix_cylinder.helix) (m : helix_cylinder.mask)
      (trf : algebra.transform3) (m' : mask (rational sqrt))
      (t t' : Qc) :
  mask_values m' 0 = helix_cylinder.mask_values m 0 ->
  helix_cylinder_intersector (of_helix sqrt h) m' (of_transform3 sqrt trf) t'
  = Some (default_intersection, default_intersection)
  <-> helix_cylinder.helix_cylinder_intersector sqrt h m trf t
      = Some (helix_cylinder.default_intersection,
              helix_cylinder.default_intersection).
Proof.
  intros Hr.
  destruct (rational_loop_agrees sqrt h m trf m' Hr) as [Hi Hl].
  unfold helix_cylinder_intersector,
    helix_cylinder.helix_cylinder_intersector.
  rewrite Hi, Hl.
  change max_n_tries with helix_cylinder.max_n_tries.
  destruct (helix_cylinder.newton_loop
              h m trf helix_cylinder.max_n_tries
              (helix_cylinder.initial_state sqrt h m)) as [[|st]|];
    cbn [option_map of_exit finish helix_cylinder.finish];
    [split; reflexivity | | split; discriminate].
  change (n_tries (of_state sqrt st)) with (helix_cylinder.n_tries st).
  change max_n_tries with helix_cylinder.max_n_tries.
  destruct (helix_cylinder.n_tries st =? helix_cylinder.max_n_tries)%nat;
    [split; reflexivity | split; discriminate].
Qed.
